(** * evo.py: the evolutionary computing framework, embedded in Rocq

    The development follows [src/evo.py] method by method.  Python
    exceptions are explicit results.  The instance attributes of
    [Environment] form one record; the object store, the two files the
    engine touches, the random source, the clock and the console form a
    second one, the world.  The methods thread both through a small
    state-and-exception monad. *)

From Stdlib Require Import ZArith Lia.
From stdpp Require Import base option list strings gmap.

Open Scope Z_scope.

(** ** Exceptions and results *)

Module Py.

(** The exceptions the engine can meet. *)
Inductive exn : Type :=
  | ValueError          (* min() / max() of an empty sequence *)
  | KeyError            (* d[k] with k missing *)
  | IndexError          (* rnd.choice of an empty sequence *)
  | FileNotFoundError   (* open() of a missing file *)
  | JSONDecodeError     (* json.load of a malformed file *)
  | UnpicklingError     (* pickle.load of a corrupt file *)
  | ZeroDivisionError   (* i % 0 *)
  | PluginError.        (* whatever an agent plug-in raises *)

Inductive result (A : Type) : Type :=
  | Ok (a : A)
  | Raise (e : exn).
Arguments Ok {A} a.
Arguments Raise {A} e.

Definition bind {A B} (r : result A) (f : A → result B) : result B :=
  match r with
  | Ok a => f a
  | Raise e => Raise e
  end.

Definition raises {A} (r : result A) : Prop := ∃ e, r = Raise e.

(** [min(xs)] and [max(xs)] on a list of numbers. *)
Definition pymin (xs : list Z) : result Z :=
  match xs with
  | [] => Raise ValueError
  | x :: xs' => Ok (foldr Z.min x xs')
  end.

Definition pymax (xs : list Z) : result Z :=
  match xs with
  | [] => Raise ValueError
  | x :: xs' => Ok (foldr Z.max x xs')
  end.

(** [map(f, xs, ys)]: stops at the shorter argument. *)
Fixpoint map2 {A B C} (f : A → B → C) (xs : list A) (ys : list B) : list C :=
  match xs, ys with
  | x :: xs', y :: ys' => f x y :: map2 f xs' ys'
  | _, _ => []
  end.

(** A comprehension [{x for x in xs if c(x)}] whose condition may raise:
    the first raising call aborts the whole comprehension. *)
Fixpoint select {A} (c : A → result bool) (xs : list A) : result (list A) :=
  match xs with
  | [] => Ok []
  | x :: xs' =>
      bind (c x) (λ b,
      bind (select c xs') (λ r,
      Ok (if b then x :: r else r)))
  end.

(** [functools.reduce(f, xs, init)]. *)
Fixpoint reduce {A B} (f : A → B → result A) (xs : list B) (init : A) : result A :=
  match xs with
  | [] => Ok init
  | x :: xs' => bind (f init x) (reduce f xs')
  end.

End Py.

Import Py.

(** ** Data model *)

(** A score is what an objective function returns; every objective of
    the repository counts entries of a 0/1 matrix, so scores are
    integers. *)
Definition score := Z.

(** An evaluation: ((name1, score1), (name2, score2), ...). *)
Definition evaluation := list (string * score).

(** A solution is a matrix of numbers (a numpy array). *)
Definition solution := list (list Z).

Definition names (k : evaluation) : list string := k.*1.
Definition scores (k : evaluation) : list score := k.*2.

(** ** Environment._dominates (evo.py 51-59) *)

Definition _dominates (p q : evaluation) : result bool :=
  let pscores := scores p in
  let qscores := scores q in
  let score_diffs := map2 (λ x y, y - x) pscores qscores in
  bind (pymin score_diffs) (λ min_diff,
  bind (pymax score_diffs) (λ max_diff,
  Ok ((0 <=? min_diff) && (0 <? max_diff)))).

(** ** Environment._reduce_nds (evo.py 61-63) *)

(** A Python set of evaluations is a list read up to membership; [S - T]
    keeps the members of [S] that are not in [T]. *)

Definition _reduce_nds (S : list evaluation) (p : evaluation) : result (list evaluation) :=
  bind (select (λ q, _dominates p q) S) (λ dominated,
  Ok (list_difference S dominated)).

(** The fold of [remove_dominated] (evo.py 79):
    [reduce(self._reduce_nds, keys, keys)]. *)
Definition nds (keys : list evaluation) : result (list evaluation) :=
  reduce _reduce_nds keys keys.

(** ** Environment._fits_constraints (evo.py 66-74) *)

(** What [open('constraints.json')] followed by [json.load] can find. *)
Inductive json_file : Type :=
  | JsonMissing
  | JsonMalformed
  | JsonObject (data : gmap string Z).

Definition load_json (f : json_file) : result (gmap string Z) :=
  match f with
  | JsonMissing => Raise FileNotFoundError
  | JsonMalformed => Raise JSONDecodeError
  | JsonObject data => Ok data
  end.

(** The [for obj in k] loop: [data[obj[0]]] raises KeyError when the
    objective has no entry. *)
Fixpoint check_scores (data : gmap string Z) (k : evaluation) : result bool :=
  match k with
  | [] => Ok true
  | obj :: k' =>
      match data !! obj.1 with
      | None => Raise KeyError
      | Some limit => if limit <? obj.2 then Ok false else check_scores data k'
      end
  end.

(** [f] is the file as the call finds it on disk: every call opens and
    loads it again. *)
Definition _fits_constraints (f : json_file) (k : evaluation) : result bool :=
  bind (load_json f) (λ data, check_scores data k).

(** ** The interpreter state outside the Environment object *)

(** Objects live in a store and are named by their address, so that two
    references to one numpy array are told apart from two equal arrays. *)
Definition addr := nat.

(** What [open('solutions.dat', 'rb')] followed by [pickle.load] can
    find; a pickled population holds the arrays by value. *)
Inductive pickle_file : Type :=
  | PickleMissing
  | PickleCorrupt
  | PickleDict (items : list (evaluation * solution)).

(** What the engine prints. *)
Inductive output : Type :=
  | OutExn (e : exn)                                  (* print(e) *)
  | OutIteration (i : nat)                            (* print('Iteration: ', i) *)
  | OutSize (n : nat)                                 (* print('Population size: ', ...) *)
  | OutReport (evals : list evaluation)               (* print(rslt) *)
  | OutTimeUp                                         (* print('Reached 10 minutes...') *)
  | OutPopulation (items : list (evaluation * solution)). (* print(self) *)

Record World : Type := mkWorld {
  heap : list solution;          (* the object at address i is heap !! i *)
  rnd : nat → nat;               (* the draws of the random module, in order *)
  rnd_pos : nat;                 (* how many draws were consumed *)
  clock : nat → Z;               (* the readings of time.time(), in order *)
  clock_pos : nat;               (* how many readings were taken *)
  constraints_json : json_file;  (* the file 'constraints.json' *)
  solutions_dat : pickle_file;   (* the file 'solutions.dat' *)
  stdout : list output           (* what was printed, oldest first *)
}.

Definition set_heap (h : list solution) (W : World) : World :=
  mkWorld h (rnd W) (rnd_pos W) (clock W) (clock_pos W)
          (constraints_json W) (solutions_dat W) (stdout W).
Definition set_rnd_pos (n : nat) (W : World) : World :=
  mkWorld (heap W) (rnd W) n (clock W) (clock_pos W)
          (constraints_json W) (solutions_dat W) (stdout W).
Definition set_clock_pos (n : nat) (W : World) : World :=
  mkWorld (heap W) (rnd W) (rnd_pos W) (clock W) n
          (constraints_json W) (solutions_dat W) (stdout W).
Definition set_solutions_dat (f : pickle_file) (W : World) : World :=
  mkWorld (heap W) (rnd W) (rnd_pos W) (clock W) (clock_pos W)
          (constraints_json W) f (stdout W).
Definition set_stdout (o : list output) (W : World) : World :=
  mkWorld (heap W) (rnd W) (rnd_pos W) (clock W) (clock_pos W)
          (constraints_json W) (solutions_dat W) o.

(** An objective function reads a solution and returns its score (or
    raises); an agent is plug-in code run on the references it is handed:
    it may draw random numbers, mutate objects in place and allocate, and
    returns the reference of its result. *)
Definition objective := solution → result score.
Definition agent := list addr → World → result addr * World.

(** ** class Environment (evo.py 12-18) *)

(** Dictionaries keep insertion order: association lists with one entry
    per key. *)
Record Environment : Type := mkEnv {
  pop : list (evaluation * addr);      (* evaluation --> sol *)
  fitness : list (string * objective); (* name --> function *)
  agents : list (string * (agent * nat)) (* name --> (operator, num_solution) *)
}.

Definition set_pop (p : list (evaluation * addr)) (E : Environment) : Environment :=
  mkEnv p (fitness E) (agents E).

(** [Environment()] *)
Definition init : Environment := mkEnv [] [] [].

(** [d[k]] and [d[k] = v] *)
Fixpoint dict_get {K V} `{EqDecision K} (d : list (K * V)) (k : K) : option V :=
  match d with
  | [] => None
  | (k', v) :: d' => if decide (k' = k) then Some v else dict_get d' k
  end.

Fixpoint dict_set {K V} `{EqDecision K} (d : list (K * V)) (k : K) (v : V) : list (K * V) :=
  match d with
  | [] => [(k, v)]
  | (k', v') :: d' =>
      if decide (k' = k) then (k, v) :: d' else (k', v') :: dict_set d' k v
  end.

(** ** Methods: state and exceptions *)

(** A method runs on [self] and the world; an exception leaves both as
    they were when it was raised. *)
Definition M (A : Type) : Type := Environment → World → result A * Environment * World.

Definition ret {A} (a : A) : M A := λ E W, (Ok a, E, W).
Definition raise {A} (e : exn) : M A := λ E W, (Raise e, E, W).
Definition lift {A} (r : result A) : M A := λ E W, (r, E, W).

Definition mbindM {A B} (m : M A) (f : A → M B) : M B :=
  λ E W, match m E W with
         | (Ok a, E', W') => f a E' W'
         | (Raise e, E', W') => (Raise e, E', W')
         end.

Declare Scope py_scope.
Delimit Scope py_scope with py.
Notation "x <- m ;; k" := (mbindM m (λ x, k))
  (at level 100, m at next level, right associativity) : py_scope.
Notation "m ;;; k" := (mbindM m (λ _, k))
  (at level 100, right associativity) : py_scope.
Open Scope py_scope.

(** [try: body except Exception as e: handler(e)] *)
Definition try_except {A} (body : M A) (handler : exn → M A) : M A :=
  λ E W, match body E W with
         | (Raise e, E', W') => handler e E' W'
         | r => r
         end.

Definition get_env : M Environment := λ E W, (Ok E, E, W).
Definition get_world : M World := λ E W, (Ok W, E, W).
Definition put_env (E' : Environment) : M unit := λ _ W, (Ok (), E', W).
Definition put_world (W' : World) : M unit := λ E _, (Ok (), E, W').

Definition print (o : output) : M unit :=
  λ E W, (Ok (), E, set_stdout (stdout W ++ [o]) W).

(** [time.time()] *)
Definition time_time : M Z :=
  λ E W, (Ok (clock W (clock_pos W)), E, set_clock_pos (S (clock_pos W)) W).

(** [rnd.choice(xs)]: IndexError on an empty sequence. *)
Definition choice {A} (xs : list A) : M A :=
  λ E W, match xs !! (rnd W (rnd_pos W) mod length xs)%nat with
         | Some x => (Ok x, E, set_rnd_pos (S (rnd_pos W)) W)
         | None => (Raise IndexError, E, W)
         end.

(** The contents of the object at [a]. *)
Definition deref (W : World) (a : addr) : solution := heap W !!! a.

(** A new object holding [v]; its address is the next free one. *)
Definition alloc (v : solution) : M addr :=
  λ E W, (Ok (length (heap W)), E, set_heap (heap W ++ [v]) W).

(** [copy.deepcopy(sol)] *)
Definition deepcopy (a : addr) : M addr :=
  W <- get_world ;; alloc (deref W a).

(** [[m for _ in range(k)]] *)
Fixpoint replicateM {A} (k : nat) (m : M A) : M (list A) :=
  match k with
  | O => ret []
  | S k' => x <- m ;; xs <- replicateM k' m ;; ret (x :: xs)
  end.

(** [for x in xs: body(x)] *)
Fixpoint for_each {A} (xs : list A) (body : A → M unit) : M unit :=
  match xs with
  | [] => ret ()
  | x :: xs' => body x ;;; for_each xs' body
  end.

(** ** Environment.size, add_fitness_criteria, add_agent (evo.py 20-30) *)

Definition size (E : Environment) : nat := length (pop E).

Definition add_fitness_criteria (name : string) (f : objective) : M unit :=
  λ E W, (Ok (), mkEnv (pop E) (dict_set (fitness E) name f) (agents E), W).

Definition add_agent (name : string) (op : agent) (k : nat) : M unit :=
  λ E W, (Ok (), mkEnv (pop E) (fitness E) (dict_set (agents E) name (op, k)), W).

(** ** Environment.add_solution (evo.py 32-34) *)

(** [[(name, f(sol)) for name, f in self.fitness.items()]] *)
Fixpoint evaluate (fs : list (string * objective)) (v : solution) : result evaluation :=
  match fs with
  | [] => Ok []
  | (name, f) :: fs' =>
      bind (f v) (λ s,
      bind (evaluate fs' v) (λ rest,
      Ok ((name, s) :: rest)))
  end.

Definition add_solution (sol : addr) : M unit :=
  E <- get_env ;;
  W <- get_world ;;
  ev <- lift (evaluate (fitness E) (deref W sol)) ;;
  put_env (set_pop (dict_set (pop E) ev sol) E).

(** ** Environment.get_random_solutions (evo.py 36-42) *)

Definition get_random_solutions (k : nat) : M (list addr) :=
  E <- get_env ;;
  if decide (size E = 0%nat) then ret []
  else
    let popvals := (pop E).*2 in
    replicateM k (c <- choice popvals ;; deepcopy c).

(** ** Environment.run_agent (evo.py 44-49) *)

(** [op(picks)] *)
Definition call (op : agent) (picks : list addr) : M addr :=
  λ E W, let '(r, W') := op picks W in (r, E, W').

Definition run_agent (name : string) : M unit :=
  E <- get_env ;;
  match dict_get (agents E) name with
  | None => raise KeyError
  | Some (op, k) =>
      picks <- get_random_solutions k ;;
      new_solution <- call op picks ;;
      add_solution new_solution
  end.

(** ** Environment.remove_dominated (evo.py 77-81) *)

(** [{k: self.pop[k] for k in new}] *)
Fixpoint restrict (d : list (evaluation * addr)) (new : list evaluation)
  : result (list (evaluation * addr)) :=
  match new with
  | [] => Ok []
  | k :: new' =>
      match dict_get d k with
      | None => Raise KeyError
      | Some v => bind (restrict d new') (λ rest, Ok ((k, v) :: rest))
      end
  end.

Definition remove_dominated : M unit :=
  E <- get_env ;;
  W <- get_world ;;
  let keys := (pop E).*1 in
  nds <- lift (nds keys) ;;
  new <- lift (select (_fits_constraints (constraints_json W)) nds) ;;
  pop' <- lift (restrict (pop E) new) ;;
  put_env (set_pop pop' E).

(** ** Environment.evolve (evo.py 83-127) *)

(** [i % m == 0] *)
Definition divides (i m : nat) : M bool :=
  if decide (m = 0%nat) then raise ZeroDivisionError
  else ret (bool_decide ((i mod m)%nat = 0%nat)).

(** The items of the population with the arrays read out of the store. *)
Definition snapshot (E : Environment) (W : World) : list (evaluation * solution) :=
  map (λ kv, (kv.1, deref W kv.2)) (pop E).

(** evo.py 95-102 *)
Definition report (i : nat) : M unit :=
  remove_dominated ;;;
  print (OutIteration i) ;;;
  E <- get_env ;;
  print (OutSize (size E)) ;;;
  print (OutReport (pop E).*1).

(** evo.py 108-111, the body of the [try] *)
Definition load_pickle (f : pickle_file) : result (list (evaluation * solution)) :=
  match f with
  | PickleMissing => Raise FileNotFoundError
  | PickleCorrupt => Raise UnpicklingError
  | PickleDict items => Ok items
  end.

Definition merge_saved : M unit :=
  W <- get_world ;;
  loaded <- lift (load_pickle (solutions_dat W)) ;;
  for_each loaded (λ item,
    sol <- alloc item.2 ;;
    E <- get_env ;;
    put_env (set_pop (dict_set (pop E) item.1 sol) E)).

(** evo.py 119-120 *)
Definition save : M unit :=
  E <- get_env ;;
  W <- get_world ;;
  put_world (set_solutions_dat (PickleDict (snapshot E W)) W).

(** evo.py 104-120 *)
Definition sync_saved : M unit :=
  try_except merge_saved (λ e, print (OutExn e)) ;;;
  remove_dominated ;;;
  save.

(** One pass of the loop body (evo.py 89-124); the result tells whether
    the loop was left by [break]. *)
Definition iteration (agent_names : list string) (start : Z)
    (dom status sync : nat) (i : nat) : M bool :=
  pick <- choice agent_names ;;
  run_agent pick ;;;
  d <- divides i dom ;;
  (if d then remove_dominated else ret ()) ;;;
  s <- divides i status ;;
  (if s then report i else ret ()) ;;;
  y <- divides i sync ;;
  (if y then sync_saved else ret ()) ;;;
  now <- time_time ;;
  if 600 <? now - start then print OutTimeUp ;;; ret true else ret false.

(** [for i in range(n)], from [i] on with [todo] passes left. *)
Fixpoint loop (agent_names : list string) (start : Z)
    (dom status sync : nat) (i todo : nat) : M unit :=
  match todo with
  | O => ret ()
  | S todo' =>
      stop <- iteration agent_names start dom status sync i ;;
      if stop then ret () else loop agent_names start dom status sync (S i) todo'
  end.

Definition evolve (n dom status sync : nat) : M unit :=
  start <- time_time ;;
  E <- get_env ;;
  let agent_names := (agents E).*1 in
  loop agent_names start dom status sync 0 n ;;;
  remove_dominated ;;;
  E <- get_env ;;
  W <- get_world ;;
  print (OutPopulation (snapshot E W)).

(** ** The vocabulary of the specification *)

(** The paired score differences [q_i - p_i] that [_dominates] looks at. *)
Definition diffs (p q : evaluation) : list Z :=
  map2 (λ x y, y - x) (scores p) (scores q).

(** Pareto dominance in the words of the specification: [q_i - p_i >= 0]
    for every index and [q_i - p_i > 0] for at least one. *)
Definition Dominates (p q : evaluation) : Prop :=
  (∀ i x y, scores p !! i = Some x → scores q !! i = Some y → y - x >= 0) ∧
  (∃ i x y, scores p !! i = Some x ∧ scores q !! i = Some y ∧ y - x > 0).

(** Keys over the same ordered objectives [ns]. *)
Definition same_objectives (ns : list string) (keys : list evaluation) : Prop :=
  Forall (λ k, names k = ns) keys.

(** The non-dominated set of a population: the keys that no other key of
    the population dominates. *)
Definition non_dominated (keys : list evaluation) (q : evaluation) : Prop :=
  q ∈ keys ∧ ∀ p, p ∈ keys → p ≠ q → ¬ Dominates p q.

(** Every score that has a configured maximum stays within it. *)
Definition within_configured (data : gmap string Z) (k : evaluation) : Prop :=
  ∀ o s limit, (o, s) ∈ k → data !! o = Some limit → s <= limit.

(** Every score has a configured maximum and stays within it. *)
Definition within_limits (data : gmap string Z) (k : evaluation) : Prop :=
  ∀ o s, (o, s) ∈ k → ∃ limit, data !! o = Some limit ∧ s <= limit.

(** The constraint source cannot be loaded. *)
Definition unloadable (f : json_file) : Prop := raises (load_json f).

(** Every stored reference points to a live object, as every Python
    reference does. *)
Definition live (E : Environment) (W : World) : Prop :=
  ∀ a, a ∈ (pop E).*2 → (a < length (heap W))%nat.

(** [L[...] = v]: a write into the object at [a]. *)
Definition mutate (a : addr) (v : solution) (W : World) : World :=
  set_heap (<[a := v]> (heap W)) W.


(** ** Sample data *)

(** An evaluation over the two objectives "conflicts" and "unwilling". *)
Definition ev (a b : Z) : evaluation :=
  [("conflicts"%string, a); ("unwilling"%string, b)].

(** Three keys; the second is dominated by the first. *)
Definition sample_keys : list evaluation := [ev 1 2; ev 1 3; ev 0 5].

(** A constraints file that limits "conflicts" only. *)
Definition conflicts_only : gmap string Z := {["conflicts"%string := 0]}.

(** A freshly started interpreter with neither file on disk. *)
Definition world0 : World :=
  mkWorld [] (λ n, n) 0 (λ _, 0) 0 JsonMissing PickleMissing [].

(** The world after [srcs] were copied in turn: one draw and one new
    object per copy. *)
Definition after_copies (W : World) (srcs : list addr) : World :=
  set_heap (heap W ++ (deref W <$> srcs))
           (set_rnd_pos (rnd_pos W + length srcs)%nat W).

(** An objective: the number of assignments in the matrix. *)
Definition total (v : solution) : result score := Ok (foldr Z.add 0 (concat v)).

(** The agent [overlay] of assignments.py: the entrywise "and" of its
    two arguments, as a new array. *)
Definition overlay : agent := λ sols W,
  match sols with
  | a :: b :: _ =>
      let both (x y : Z) : Z := if bool_decide (x ≠ 0 ∧ y ≠ 0) then 1 else 0 in
      (Ok (length (heap W)),
       set_heap (heap W ++ [zip_with (zip_with both) (deref W a) (deref W b)]) W)
  | _ => (Raise IndexError, W)
  end.

(** A store holding one solution, and an agent of arity 2. *)
Definition env1 : Environment :=
  mkEnv [([("total"%string, 1)], 0%nat)]
        [("total"%string, total)]
        [("overlay"%string, (overlay, 2%nat))].

Definition world1 : World :=
  mkWorld [[[1; 0]]] (λ n, n) 0 (λ _, 0) 0 JsonMissing PickleMissing [].

(** Comparison of two score lists at the first index where they differ,
    within their common length.  Dominance implies it, whatever the
    lengths, so a least key for it is dominated by none. *)
Fixpoint lex_lt (xs ys : list Z) : bool :=
  match xs, ys with
  | x :: xs', y :: ys' => (x <? y) || ((x =? y) && lex_lt xs' ys')
  | _, _ => false
  end.

(** The same store with a constraints file limiting "total" to 5 and a
    corrupt checkpoint on disk. *)
Definition world2 : World :=
  mkWorld [[[1; 0]]] (λ n, n) 0 (λ _, 0) 0
          (JsonObject {["total"%string := 5]}) PickleCorrupt [].

(** ** Invariants of the population dictionary *)

(** A dictionary holds each key once. *)
Definition unique_keys (E : Environment) : Prop := NoDup (pop E).*1.

(** Every key is an evaluation over the registered objectives, in
    registration order. *)
Definition keyed_by_registry (E : Environment) : Prop :=
  same_objectives (fitness E).*1 (pop E).*1.

(** A constraints file that limits both objectives of [ev]. *)
Definition both_limits : gmap string Z :=
  {["conflicts"%string := 2; "unwilling"%string := 9]}.

(** The objective that adds up row [i] of the matrix. *)
Definition row_total (i : nat) : objective := λ v, Ok (foldr Z.add 0 (v !!! i)).

(** A population of three stored solutions, scored on two objectives,
    and the world holding them with a constraints file for both. *)
Definition env2 : Environment :=
  mkEnv [(ev 1 2, 0%nat); (ev 1 3, 1%nat); (ev 0 5, 2%nat)]
        [("conflicts"%string, row_total 0); ("unwilling"%string, row_total 1)]
        [].

Definition world3 : World :=
  mkWorld [[[1]; [2]]; [[1]; [3]]; [[0]; [5]]] (λ n, n) 0 (λ _, 0) 0
          (JsonObject both_limits) PickleMissing [].

(** ** The merge loop of the sync step, in closed form *)

(** The population once the loop has stored the loaded items one by
    one, the object of the first at address [next]. *)
Fixpoint merged (d : list (evaluation * addr)) (next : addr)
    (items : list (evaluation * solution)) : list (evaluation * addr) :=
  match items with
  | [] => d
  | item :: items' => merged (dict_set d item.1 next) (S next) items'
  end.


(** The same world with a checkpoint on disk: one key the population
    has, one it has not. *)
Definition saved_items : list (evaluation * solution) :=
  [(ev 1 2, [[1]; [2]; [0]]); (ev 0 1, [[0]; [1]])].

Definition world4 : World :=
  mkWorld [[[1]; [2]]; [[1]; [3]]; [[0]; [5]]] (λ n, n) 0 (λ _, 0) 0
          (JsonObject both_limits) (PickleDict saved_items) [].

(** ** Agents of assignments.py *)

(** [rnd.randrange(0, n)]: ValueError on an empty range, before any
    draw. *)
Definition randrange (n : nat) (W : World) : result nat * World :=
  if decide (n = 0%nat) then (Raise ValueError, W)
  else (Ok (rnd W (rnd_pos W) mod n)%nat, set_rnd_pos (S (rnd_pos W)) W).

(** [L.shape[1]] of an array with at least one row. *)
Definition shape1 (m : solution) : nat := length (m !!! 0%nat).

(** flip_val (assignments.py 92-103): flips one entry of its first
    argument in place and returns that same array. *)
Definition flip_val : agent := λ sols W,
  match sols with
  | [] => (Raise IndexError, W)
  | L :: _ =>
      match randrange (length (deref W L)) W with
      | (Raise e, W1) => (Raise e, W1)
      | (Ok r, W1) =>
          match randrange (shape1 (deref W1 L)) W1 with
          | (Raise e, W2) => (Raise e, W2)
          | (Ok c, W2) =>
              let m := deref W2 L in
              let row := m !!! r in
              let v := if decide (row !!! c = 0) then 1 else 0 in
              (Ok L, mutate L (<[r := <[c := v]> row]> m) W2)
          end
      end
  end.

(** swap_rows (assignments.py 83-89): [L[[r1, r2]] = L[[r2, r1]]] reads
    both rows, then writes them crosswise, in place. *)
Definition swap_rows : agent := λ sols W,
  match sols with
  | [] => (Raise IndexError, W)
  | L :: _ =>
      match randrange (length (deref W L)) W with
      | (Raise e, W1) => (Raise e, W1)
      | (Ok r1, W1) =>
          match randrange (length (deref W1 L)) W1 with
          | (Raise e, W2) => (Raise e, W2)
          | (Ok r2, W2) =>
              let m := deref W2 L in
              (Ok L, mutate L (<[r2 := m !!! r1]> (<[r1 := m !!! r2]> m)) W2)
          end
      end
  end.

(** An agent that works on the arrays it is handed: given live
    references, it frees nothing, leaves every other existing object as
    it was, and returns a live reference. *)
Definition confined (op : agent) : Prop :=
  ∀ sols W r W',
    (∀ a, a ∈ sols → (a < length (heap W))%nat) →
    op sols W = (r, W') →
    (length (heap W) ≤ length (heap W'))%nat ∧
    (∀ b, b ∉ sols → (b < length (heap W))%nat → heap W' !! b = heap W !! b) ∧
    (∀ a, r = Ok a → (a < length (heap W'))%nat).

(** The sample population with flip_val registered. *)
Definition env3 : Environment :=
  mkEnv (pop env2) (fitness env2) [("flip_val"%string, (flip_val, 1%nat))].
(** * Pareto dominance *)

Lemma map2_lookup {A B C} (f : A → B → C) xs ys i c :
  map2 f xs ys !! i = Some c ↔
  ∃ x y, xs !! i = Some x ∧ ys !! i = Some y ∧ c = f x y.
Proof.
  revert ys i. induction xs as [|x xs IH]; intros [|y ys] i; simpl.
  - split; [done | by intros (? & ? & ? & _)].
  - split; [done | by intros (? & ? & ? & _)].
  - split; [done | by intros (? & ? & _ & ? & _)].
  - destruct i as [|i]; simpl.
    + split.
      * intros [= <-]. by exists x, y.
      * by intros (? & ? & [= <-] & [= <-] & ->).
    + apply IH.
Qed.

Lemma foldr_min_nonneg x xs :
  0 <= foldr Z.min x xs ↔ 0 <= x ∧ Forall (λ d, 0 <= d) xs.
Proof.
  induction xs as [|y ys IH]; simpl.
  - split; [by intros; split | by intros []].
  - rewrite Forall_cons. split.
    + intros H. assert (0 <= y ∧ 0 <= foldr Z.min x ys) as [? Hr] by lia.
      apply IH in Hr. tauto.
    + intros (Hx & Hy & Hys). assert (0 <= foldr Z.min x ys) by (apply IH; tauto).
      lia.
Qed.

Lemma foldr_max_pos x xs :
  0 < foldr Z.max x xs ↔ 0 < x ∨ Exists (λ d, 0 < d) xs.
Proof.
  induction xs as [|y ys IH]; simpl.
  - split; [by left | intros [|H]; [done | by apply Exists_nil in H]].
  - rewrite Exists_cons. split.
    + intros H. destruct (decide (0 < y)); [tauto|].
      assert (0 < foldr Z.max x ys) as Hr by lia. apply IH in Hr. tauto.
    + intros [Hx | [Hy | Hys]]; [| lia |].
      * assert (0 < foldr Z.max x ys) by (apply IH; tauto). lia.
      * assert (0 < foldr Z.max x ys) by (apply IH; tauto). lia.
Qed.

(** What [_dominates] computes, on the list of differences. *)
Lemma _dominates_unfold p q :
  _dominates p q =
  match diffs p q with
  | [] => Raise ValueError
  | d :: ds => Ok ((0 <=? foldr Z.min d ds) && (0 <? foldr Z.max d ds))
  end.
Proof. unfold _dominates, diffs. by destruct (map2 _ _ _). Qed.

Lemma _dominates_true_diffs p q :
  _dominates p q = Ok true ↔
  Forall (λ d, 0 <= d) (diffs p q) ∧ Exists (λ d, 0 < d) (diffs p q).
Proof.
  rewrite _dominates_unfold. destruct (diffs p q) as [|d ds].
  - split; [done | intros [_ H]; by apply Exists_nil in H].
  - rewrite Forall_cons, Exists_cons. split.
    + intros [= H]. apply andb_true_iff in H as [H1 H2].
      apply Z.leb_le, foldr_min_nonneg in H1. apply Z.ltb_lt, foldr_max_pos in H2.
      tauto.
    + intros [[? ?] ?]. f_equal. apply andb_true_iff. split.
      * apply Z.leb_le, foldr_min_nonneg. tauto.
      * apply Z.ltb_lt, foldr_max_pos. tauto.
Qed.

(** [_dominates] returns true exactly on the pairs the specification
    calls dominated, whatever the lengths. *)
Lemma _dominates_true p q : _dominates p q = Ok true ↔ Dominates p q.
Proof.
  rewrite _dominates_true_diffs. unfold Dominates, diffs.
  rewrite Forall_lookup, Exists_exists. split.
  - intros [Hall (d & Hd & Hpos)]. split.
    + intros i x y Hx Hy.
      assert (0 <= y - x); [|lia].
      apply (Hall i). apply map2_lookup. by exists x, y.
    + apply list_elem_of_lookup in Hd as [i Hi].
      apply map2_lookup in Hi as (x & y & Hx & Hy & ->).
      exists i, x, y. repeat split; [done.. | lia].
  - intros [Hall (i & x & y & Hx & Hy & Hpos)]. split.
    + intros j d Hj. apply map2_lookup in Hj as (x' & y' & Hx' & Hy' & ->).
      specialize (Hall j x' y' Hx' Hy'). lia.
    + exists (y - x). split; [|lia].
      apply list_elem_of_lookup. exists i. apply map2_lookup. by exists x, y.
Qed.

(** On non-empty vectors [_dominates] returns a boolean. *)
Lemma _dominates_returns p q :
  p ≠ [] → q ≠ [] → ∃ b, _dominates p q = Ok b.
Proof.
  intros Hp Hq. rewrite _dominates_unfold. unfold diffs, scores.
  destruct p as [|[? ?] ?], q as [|[? ?] ?]; try done. simpl. eauto.
Qed.

Lemma scores_length k : length (scores k) = length k.
Proof. unfold scores. by rewrite length_fmap. Qed.

Lemma Dominates_asym p q : Dominates p q → Dominates q p → False.
Proof.
  intros [_ (i & x & y & Hx & Hy & Hpos)] [Hall _].
  specialize (Hall i y x Hy Hx). lia.
Qed.

Lemma Dominates_irrefl p : ¬ Dominates p p.
Proof.
  intros [_ (i & x & y & Hx & Hy & Hpos)].
  rewrite Hx in Hy. injection Hy as ->. lia.
Qed.

Lemma Dominates_trans p q r :
  length p = length q → length q = length r →
  Dominates p q → Dominates q r → Dominates p r.
Proof.
  intros Hpq Hqr [Hall1 (i & x & y & Hx & Hy & Hpos)] [Hall2 _]. split.
  - intros j a c Ha Hc.
    destruct (lookup_lt_is_Some_2 (scores q) j) as [b Hb].
    { rewrite scores_length, <- Hpq, <- scores_length. by eapply lookup_lt_Some. }
    specialize (Hall1 j a b Ha Hb). specialize (Hall2 j b c Hb Hc). lia.
  - destruct (lookup_lt_is_Some_2 (scores r) i) as [z Hz].
    { rewrite scores_length, <- Hqr, <- scores_length. by eapply lookup_lt_Some. }
    exists i, x, z. repeat split; [done.. |].
    specialize (Hall2 i y z Hy Hz). lia.
Qed.

(** * Comprehensions and folds that may raise *)

Section select.
Context {A : Type} (c : A → result bool).

Lemma select_inv xs r :
  select c xs = Ok r →
  (∀ x, x ∈ xs → ∃ b, c x = Ok b) ∧ (∀ x, x ∈ r ↔ x ∈ xs ∧ c x = Ok true).
Proof.
  revert r. induction xs as [|x xs IH]; simpl; intros r Hr.
  - injection Hr as <-. split; [by intros ? ?%elem_of_nil|].
    intros y. split; [by intros ?%elem_of_nil | by intros [?%elem_of_nil _]].
  - destruct (c x) as [b|] eqn:Hx; [simpl in Hr | done].
    destruct (select c xs) as [r'|] eqn:Hxs; [simpl in Hr | done].
    injection Hr as <-. destruct (IH r' eq_refl) as [Hall Hmem]. split.
    + intros y [-> | Hy]%elem_of_cons; eauto.
    + intros y. rewrite elem_of_cons. destruct b.
      * rewrite elem_of_cons, Hmem. split; [|tauto].
        intros [-> | ?]; tauto.
      * rewrite Hmem. split; [tauto|].
        intros [[-> | ?] Hy]; [congruence | tauto].
Qed.

Lemma select_returns xs :
  (∀ x, x ∈ xs → ∃ b, c x = Ok b) → ∃ r, select c xs = Ok r.
Proof.
  induction xs as [|x xs IH]; simpl; intros Hall; [eauto|].
  destruct (Hall x) as [b ->]; [by left|].
  destruct IH as [r ->]; [intros; apply Hall; by right|].
  simpl. eauto.
Qed.

Lemma select_none xs :
  (∀ x, x ∈ xs → c x = Ok false) → select c xs = Ok [].
Proof.
  induction xs as [|x xs IH]; simpl; intros Hall; [done|].
  rewrite (Hall x) by (by left). simpl.
  rewrite IH; [done|]. intros; apply Hall; by right.
Qed.

Lemma select_raises xs x e :
  x ∈ xs → (∀ y, y ∈ xs → c y = Raise e) → select c xs = Raise e.
Proof.
  intros Hx Hall. destruct xs as [|y ys]; [by apply elem_of_nil in Hx|].
  simpl. by rewrite (Hall y) by (by left).
Qed.

End select.

Lemma list_difference_nil {A} `{EqDecision A} (l : list A) :
  list_difference l [] = l.
Proof. induction l as [|x l IH]; simpl; [done|]. by rewrite IH. Qed.

(** * The non-dominated set *)

(** One step of the fold: the members of [S] that [p] does not dominate;
    every member of [S] was compared with [p]. *)
Lemma _reduce_nds_inv S p S' :
  _reduce_nds S p = Ok S' →
  (∀ q, q ∈ S → ∃ b, _dominates p q = Ok b) ∧
  (∀ q, q ∈ S' ↔ q ∈ S ∧ _dominates p q ≠ Ok true).
Proof.
  unfold _reduce_nds. intros H.
  destruct (select _ S) as [T|] eqn:HT; [simpl in H | done].
  injection H as <-. apply select_inv in HT as [Hall HT]. split; [done|].
  intros q. rewrite list_elem_of_difference, HT. tauto.
Qed.

Lemma _reduce_nds_returns S p :
  p ≠ [] → (∀ q, q ∈ S → q ≠ []) → ∃ S', _reduce_nds S p = Ok S'.
Proof.
  intros Hp HS. unfold _reduce_nds.
  destruct (select_returns (λ q, _dominates p q) S) as [T ->]; [|simpl; eauto].
  intros q Hq. apply _dominates_returns; auto.
Qed.

Lemma _reduce_nds_keeps S p :
  (∀ q, q ∈ S → _dominates p q = Ok false) → _reduce_nds S p = Ok S.
Proof.
  intros H. unfold _reduce_nds. rewrite select_none by done. simpl.
  by rewrite list_difference_nil.
Qed.

(** The whole fold over [order] from [S]: what is left are the members
    of [S] that no key of [order] dominates, and each of them was
    compared with every key of [order]. *)
Lemma reduce_nds_inv order S out :
  reduce _reduce_nds order S = Ok out →
  (∀ q, q ∈ out ↔ q ∈ S ∧ ∀ p, p ∈ order → _dominates p q ≠ Ok true) ∧
  (∀ p q, p ∈ order → q ∈ out → _dominates p q = Ok false).
Proof.
  revert S. induction order as [|p order IH]; simpl; intros S H.
  - injection H as <-. split.
    + intros q. split; [|tauto]. intros Hq. split; [done|]. by intros ? ?%elem_of_nil.
    + by intros ? ? ?%elem_of_nil.
  - destruct (_reduce_nds S p) as [S1|] eqn:H1; [simpl in H | done].
    apply _reduce_nds_inv in H1 as [Hcmp H1].
    apply IH in H as [Hmem Hfalse]. split.
    + intros q. rewrite Hmem, H1. split.
      * intros [[? ?] Hall]. split; [done|].
        intros p' [-> | ?]%elem_of_cons; auto.
      * intros [? Hall]. split; [split; [done|] |].
        -- apply Hall. by left.
        -- intros p' ?. apply Hall. by right.
    + intros p' q [-> | Hp']%elem_of_cons Hq; [|by apply Hfalse].
      apply Hmem in Hq as [Hq _]. apply H1 in Hq as [Hq Hne].
      destruct (Hcmp q Hq) as [[] Hb]; congruence.
Qed.

Lemma reduce_nds_returns order S :
  (∀ p, p ∈ order → p ≠ []) → (∀ q, q ∈ S → q ≠ []) →
  ∃ out, reduce _reduce_nds order S = Ok out.
Proof.
  revert S. induction order as [|p order IH]; simpl; intros S Ho HS; [eauto|].
  destruct (_reduce_nds_returns S p) as [S1 H1]; [apply Ho; by left | done |].
  rewrite H1. simpl. apply IH.
  - intros; apply Ho; by right.
  - intros q Hq. apply _reduce_nds_inv in H1 as [_ H1].
    apply HS. by apply H1.
Qed.

Lemma reduce_nds_keeps order S :
  (∀ p q, p ∈ order → q ∈ S → _dominates p q = Ok false) →
  reduce _reduce_nds order S = Ok S.
Proof.
  induction order as [|p order IH]; simpl; intros H; [done|].
  rewrite _reduce_nds_keeps by (intros; apply H; [by left | done]).
  simpl. apply IH. intros; apply H; [by right | done].
Qed.

Lemma nds_fixed keys out : nds keys = Ok out → nds out = Ok out.
Proof.
  unfold nds. intros H. apply reduce_nds_inv in H as [Hmem Hfalse].
  apply reduce_nds_keeps. intros p q Hp Hq.
  apply Hfalse; [|done]. by apply Hmem.
Qed.

Lemma same_objectives_nonempty ns keys k :
  ns ≠ [] → same_objectives ns keys → k ∈ keys → k ≠ [].
Proof.
  intros Hns Hall Hk ->. unfold same_objectives in Hall.
  rewrite Forall_forall in Hall. apply Hall in Hk. by subst.
Qed.

(** Not being dominated by another key is not being dominated at all. *)
Lemma non_dominated_alt keys q :
  non_dominated keys q ↔ q ∈ keys ∧ ∀ p, p ∈ keys → _dominates p q ≠ Ok true.
Proof.
  unfold non_dominated. split; intros [Hq Hall]; (split; [done|]).
  - intros p Hp Hd. apply _dominates_true in Hd.
    destruct (decide (p = q)) as [-> | Hne].
    + by apply Dominates_irrefl in Hd.
    + by apply (Hall p).
  - intros p Hp _ Hd. apply _dominates_true in Hd. by apply (Hall p).
Qed.

(** C2: for evaluation vectors p and q of equal length, [_dominates p q]
    returns true if and only if q_i - p_i >= 0 for every index i and
    q_i - p_i > 0 for at least one index i. *)
Theorem dominates_iff_pareto (p q : evaluation) :
  length p = length q →
  _dominates p q = Ok true ↔
    (∀ i x y, scores p !! i = Some x → scores q !! i = Some y → y - x >= 0) ∧
    (∃ i x y, scores p !! i = Some x ∧ scores q !! i = Some y ∧ y - x > 0).
Proof. intros _. apply _dominates_true. Qed.

Lemma dominates_iff_pareto_witness :
  length (ev 1 2) = length (ev 1 3) ∧
  (_dominates (ev 1 2) (ev 1 3) = Ok true ↔
    (∀ i x y, scores (ev 1 2) !! i = Some x → scores (ev 1 3) !! i = Some y → y - x >= 0) ∧
    (∃ i x y, scores (ev 1 2) !! i = Some x ∧ scores (ev 1 3) !! i = Some y ∧ y - x > 0)).
Proof.
  split; [reflexivity|]. apply (dominates_iff_pareto (ev 1 2) (ev 1 3)). reflexivity.
Defined.

(** C9: dominance is asymmetric and irreflexive: [_dominates p q] and
    [_dominates q p] are never both true, and [_dominates p p] is never
    true; on a vector with at least one score it returns false (on the
    empty vector the call raises instead of returning). *)
Theorem dominates_asymmetric_irreflexive (p q : evaluation) :
  length p = length q →
  ¬ (_dominates p q = Ok true ∧ _dominates q p = Ok true) ∧
  _dominates p p ≠ Ok true ∧
  (p ≠ [] → _dominates p p = Ok false).
Proof.
  intros _. split; [|split].
  - rewrite !_dominates_true. intros [H1 H2]. by eapply Dominates_asym.
  - rewrite _dominates_true. apply Dominates_irrefl.
  - intros Hp. destruct (_dominates_returns p p Hp Hp) as [[] Hb]; [|done].
    apply _dominates_true in Hb. by apply Dominates_irrefl in Hb.
Qed.

Lemma dominates_asymmetric_irreflexive_witness :
  length (ev 1 2) = length (ev 1 3) ∧
  ¬ (_dominates (ev 1 2) (ev 1 3) = Ok true ∧ _dominates (ev 1 3) (ev 1 2) = Ok true) ∧
  _dominates (ev 1 2) (ev 1 2) ≠ Ok true ∧
  (ev 1 2 ≠ [] → _dominates (ev 1 2) (ev 1 2) = Ok false).
Proof.
  split; [reflexivity|].
  apply (dominates_asymmetric_irreflexive (ev 1 2) (ev 1 3)). reflexivity.
Defined.

(** C10: dominance is transitive on evaluation vectors of equal length:
    if [_dominates p q] and [_dominates q r] return true, so does
    [_dominates p r]. *)
Theorem dominates_transitive (p q r : evaluation) :
  length p = length q → length q = length r →
  _dominates p q = Ok true → _dominates q r = Ok true →
  _dominates p r = Ok true.
Proof.
  rewrite !_dominates_true. apply Dominates_trans.
Qed.

Lemma dominates_transitive_witness :
  _dominates (ev 0 0) (ev 0 1) = Ok true ∧
  _dominates (ev 0 1) (ev 1 1) = Ok true ∧
  _dominates (ev 0 0) (ev 1 1) = Ok true.
Proof.
  split; [reflexivity | split; [reflexivity|]].
  apply (dominates_transitive (ev 0 0) (ev 0 1) (ev 1 1)); reflexivity.
Defined.

(** C1, as amended: for every population whose keys are evaluation
    vectors over the same ordered objectives, at least one objective
    being registered, the fold of [_reduce_nds] over the key set, started
    from the full key set, returns exactly the non-dominated set: the
    keys that no other key of the population dominates.  The same holds
    for the fold taken over the keys in any other order. *)
Theorem nds_is_non_dominated_set (ns : list string) (keys : list evaluation) :
  ns ≠ [] → same_objectives ns keys →
  (∃ out, nds keys = Ok out ∧ ∀ q, q ∈ out ↔ non_dominated keys q) ∧
  (∀ order, order ≡ₚ keys →
     ∃ out, reduce _reduce_nds order keys = Ok out ∧
            ∀ q, q ∈ out ↔ non_dominated keys q).
Proof.
  intros Hns Hsame.
  assert (Hany : ∀ order, order ≡ₚ keys →
     ∃ out, reduce _reduce_nds order keys = Ok out ∧
            ∀ q, q ∈ out ↔ non_dominated keys q).
  { intros order Hperm.
    destruct (reduce_nds_returns order keys) as [out Hout].
    - intros p Hp. apply (same_objectives_nonempty ns keys); [done..|].
      by rewrite <- Hperm.
    - intros q. by apply (same_objectives_nonempty ns keys).
    - exists out. split; [done|]. intros q.
      apply reduce_nds_inv in Hout as [Hmem _].
      rewrite Hmem, non_dominated_alt.
      split; intros [Hq Hall]; (split; [done|]); intros p Hp; apply Hall.
      + by rewrite Hperm.
      + by rewrite <- Hperm. }
  split; [|done]. by apply Hany.
Qed.

Lemma nds_is_non_dominated_set_witness :
  (∃ out, nds sample_keys = Ok out ∧ ∀ q, q ∈ out ↔ non_dominated sample_keys q) ∧
  (∀ order, order ≡ₚ sample_keys →
     ∃ out, reduce _reduce_nds order sample_keys = Ok out ∧
            ∀ q, q ∈ out ↔ non_dominated sample_keys q).
Proof.
  apply (nds_is_non_dominated_set ["conflicts"; "unwilling"]%string sample_keys).
  - discriminate.
  - repeat constructor.
Defined.

(** C1, as stated, fails when no objective is registered: the only key
    is the empty vector, it is non-dominated, and the fold raises
    ValueError instead of returning it. *)
Lemma nds_without_objectives :
  same_objectives [] [[]] ∧
  non_dominated [[]] [] ∧
  nds [[]] = Raise ValueError ∧
  ¬ (∃ out, nds [[]] = Ok out ∧ ∀ q, q ∈ out ↔ non_dominated [[]] q).
Proof.
  split; [by repeat constructor|]. split; [|split].
  - split; [by left|]. by intros p ->%list_elem_of_singleton.
  - reflexivity.
  - by intros (out & H & _).
Qed.

(** C8: the non-dominated-set reduction is idempotent: applied to its
    own output it returns that output again.  When every key has at
    least one score the reduction does return. *)
Theorem nds_idempotent (keys : list evaluation) :
  bind (nds keys) nds = nds keys ∧
  ((∀ k, k ∈ keys → k ≠ []) → ∃ out, nds keys = Ok out ∧ nds out = Ok out).
Proof.
  split.
  - destruct (nds keys) as [out|] eqn:H; simpl; [|done]. by apply nds_fixed in H.
  - intros Hne. destruct (reduce_nds_returns keys keys Hne Hne) as [out H].
    exists out. split; [done|]. by apply nds_fixed in H.
Qed.

Lemma nds_idempotent_witness :
  ∃ out, nds sample_keys = Ok out ∧ nds out = Ok out.
Proof.
  apply (proj2 (nds_idempotent sample_keys)).
  intros k Hk. unfold sample_keys in Hk.
  repeat (apply elem_of_cons in Hk as [-> | Hk]; [discriminate|]).
  by apply elem_of_nil in Hk.
Defined.

(** * Constraint filtering *)

Lemma check_scores_true data k :
  check_scores data k = Ok true ↔ within_limits data k.
Proof.
  unfold within_limits. induction k as [|[o s] k IH]; simpl.
  - split; [by intros _ ? ? ?%elem_of_nil | done].
  - destruct (data !! o) as [limit|] eqn:Ho.
    + destruct (limit <? s) eqn:Hlt.
      * apply Z.ltb_lt in Hlt. split; [done|]. intros H.
        destruct (H o s) as (l & Hl & ?); [by left|].
        rewrite Ho in Hl. injection Hl as <-. lia.
      * apply Z.ltb_ge in Hlt. rewrite IH. split.
        -- intros H o' s' [[= -> ->] | Hin]%elem_of_cons; eauto.
        -- intros H o' s' Hin. apply H. by right.
    + split; [done|]. intros H.
      destruct (H o s) as (l & Hl & _); [by left|]. congruence.
Qed.

Lemma check_scores_absent data k :
  within_configured data k →
  (∃ o s, (o, s) ∈ k ∧ data !! o = None) →
  check_scores data k = Raise KeyError.
Proof.
  unfold within_configured. induction k as [|[o s] k IH]; simpl; intros Hin Habs.
  - destruct Habs as (? & ? & ?%elem_of_nil & _). done.
  - destruct (data !! o) as [limit|] eqn:Ho; [|done].
    assert (s <= limit) as Hle by (apply (Hin o s); [by left | done]).
    apply Z.ltb_ge in Hle. rewrite Hle. apply IH.
    + intros o' s' l' ? ?. apply (Hin o' s'); [by right | done].
    + destruct Habs as (o' & s' & [[= -> ->] | ?]%elem_of_cons & Hnone); [congruence|].
      eauto.
Qed.

(** C3, as amended: on a loaded constraint mapping the filter accepts k
    exactly when every (objective, score) pair of k has a configured
    maximum and its score does not exceed it.  An objective absent from
    the mapping is not unconstrained: when every configured maximum is
    respected and some objective of k has none, the lookup raises
    KeyError. *)
Theorem fits_constraints_configured (data : gmap string Z) (k : evaluation) :
  (_fits_constraints (JsonObject data) k = Ok true ↔ within_limits data k) ∧
  (within_configured data k →
   (∃ o s, (o, s) ∈ k ∧ data !! o = None) →
   _fits_constraints (JsonObject data) k = Raise KeyError).
Proof.
  split; [apply check_scores_true | apply check_scores_absent].
Qed.

Lemma fits_constraints_configured_witness :
  _fits_constraints (JsonObject conflicts_only) (ev 0 3) = Raise KeyError.
Proof.
  apply (proj2 (fits_constraints_configured conflicts_only (ev 0 3))).
  - intros o s limit Hin Hlimit. unfold ev in Hin.
    apply elem_of_cons in Hin as [[= -> ->] | Hin].
    + vm_compute in Hlimit. injection Hlimit as <-. lia.
    + apply list_elem_of_singleton in Hin as [= -> ->]. vm_compute in Hlimit. done.
  - exists "unwilling"%string, 3. split; [|by vm_compute].
    apply elem_of_cons. right. by left.
Defined.

(** C3, as stated, fails: every score of the vector that has a
    configured maximum respects it, "unwilling" has none, and the filter
    raises KeyError instead of accepting. *)
Lemma fits_constraints_absent_objective :
  within_configured conflicts_only (ev 0 3) ∧
  _fits_constraints (JsonObject conflicts_only) (ev 0 3) = Raise KeyError ∧
  _fits_constraints (JsonObject conflicts_only) (ev 0 3) ≠ Ok true.
Proof.
  split; [|split; [by vm_compute | by vm_compute]].
  intros o s limit Hin Hlimit. unfold ev in Hin.
  apply elem_of_cons in Hin as [[= -> ->] | Hin].
  - vm_compute in Hlimit. injection Hlimit as <-. lia.
  - apply list_elem_of_singleton in Hin as [= -> ->]. vm_compute in Hlimit. done.
Qed.

(** * Sampling *)

(** C7: sampling from an empty population store returns the empty
    sequence for every k, without raising and without touching the
    state. *)
Theorem get_random_solutions_empty (k : nat) (E : Environment) (W : World) :
  size E = 0%nat → get_random_solutions k E W = (Ok [], E, W).
Proof.
  intros H. unfold get_random_solutions, mbindM, get_env.
  by rewrite decide_True.
Qed.

Lemma get_random_solutions_empty_witness :
  size init = 0%nat ∧ get_random_solutions 2 init world0 = (Ok [], init, world0).
Proof.
  split; [reflexivity|]. apply (get_random_solutions_empty 2 init world0). reflexivity.
Defined.

Lemma bind_ok {A B} (m : M A) (f : A → M B) E W a E' W' :
  m E W = (Ok a, E', W') → (x <- m ;; f x) E W = f a E' W'.
Proof. unfold mbindM. by intros ->. Qed.

Lemma bind_raise {A B} (m : M A) (f : A → M B) E W e E' W' :
  m E W = (Raise e, E', W') → (x <- m ;; f x) E W = (Raise e, E', W').
Proof. unfold mbindM. by intros ->. Qed.

Section sampling.
Context (E : Environment) (vals : list addr).
Hypothesis vals_nonempty : vals ≠ [].

(** One pass of the comprehension: a draw, then a copy at the next free
    address. *)
Lemma copy_one W :
  ∃ c, c ∈ vals ∧
    (c <- choice vals ;; deepcopy c) E W =
    (Ok (length (heap W)), E, after_copies W [c]).
Proof.
  unfold mbindM, choice.
  destruct (vals !! (rnd W (rnd_pos W) mod length vals)%nat) as [c|] eqn:Hc.
  - exists c. split; [by eapply list_elem_of_lookup_2|].
    unfold deepcopy, mbindM, get_world, alloc, after_copies. simpl.
    destruct W; simpl. unfold set_heap, set_rnd_pos; simpl.
    by rewrite Nat.add_1_r.
  - apply lookup_ge_None in Hc.
    assert (length vals ≠ 0%nat) by (by destruct vals).
    pose proof (Nat.mod_upper_bound (rnd W (rnd_pos W)) (length vals)). lia.
Qed.

Lemma after_copies_cons W c srcs :
  (∀ b, b ∈ srcs → (b < length (heap W))%nat) →
  after_copies (after_copies W [c]) srcs = after_copies W (c :: srcs).
Proof.
  intros Hlive. unfold after_copies, set_heap, set_rnd_pos. destruct W; simpl in *.
  f_equal; [|lia]. rewrite <- app_assoc. simpl. do 2 f_equal.
  apply list_fmap_ext. intros i b Hb. unfold deref. simpl.
  apply lookup_total_app_l, Hlive. by eapply list_elem_of_lookup_2.
Qed.

(** The whole comprehension: k draws, k copies at the k next free
    addresses. *)
Lemma copy_many k W :
  (∀ b, b ∈ vals → (b < length (heap W))%nat) →
  ∃ srcs, length srcs = k ∧ (∀ c, c ∈ srcs → c ∈ vals) ∧
    replicateM k (c <- choice vals ;; deepcopy c) E W =
    (Ok (seq (length (heap W)) k), E, after_copies W srcs).
Proof.
  revert W. induction k as [|k IH]; intros W Hlive.
  - exists []. split; [done|]. split; [by intros ? ?%elem_of_nil|].
    simpl. unfold ret, after_copies, set_heap, set_rnd_pos. destruct W; simpl.
    by rewrite app_nil_r, Nat.add_0_r.
  - destruct (copy_one W) as (c & Hc & Hone).
    destruct (IH (after_copies W [c])) as (srcs & Hlen & Hsrcs & Hmany).
    { intros b Hb. simpl. rewrite length_app. specialize (Hlive b Hb). lia. }
    exists (c :: srcs). split; [simpl; lia|]. split.
    { intros b [-> | ?]%elem_of_cons; auto. }
    simpl. rewrite (bind_ok _ _ _ _ _ _ _ Hone), (bind_ok _ _ _ _ _ _ _ Hmany).
    unfold ret.
    rewrite after_copies_cons by (intros; apply Hlive; auto).
    do 3 f_equal. simpl. rewrite length_app. simpl.
    by rewrite Nat.add_1_r.
Qed.

End sampling.

(** C6: on a non-empty store, sampling k solutions returns exactly k
    references; each is a new object whose contents equal those of some
    stored solution; the copies are distinct from one another and from
    every stored object, the stored objects are left as they were, and a
    write through a copy does not reach them.  [run_agent] hands exactly
    these k copies to an agent of arity k, however few solutions the
    store holds. *)
Theorem get_random_solutions_copies (k : nat) (E : Environment) (W : World) :
  pop E ≠ [] → live E W →
  ∃ picks W',
    get_random_solutions k E W = (Ok picks, E, W') ∧
    length picks = k ∧
    (∀ a, a ∈ picks →
       ∃ b v, b ∈ (pop E).*2 ∧ heap W !! b = Some v ∧ heap W' !! a = Some v) ∧
    NoDup picks ∧
    (∀ a, a ∈ picks → a ∉ (pop E).*2) ∧
    (∀ b, b ∈ (pop E).*2 → heap W' !! b = heap W !! b) ∧
    (∀ a v b, a ∈ picks → b ∈ (pop E).*2 →
       heap (mutate a v W') !! b = heap W !! b) ∧
    (∀ name op, dict_get (agents E) name = Some (op, k) →
       run_agent name E W = (new <- call op picks ;; add_solution new) E W').
Proof.
  intros Hpop Hlive.
  assert (Hvals : (pop E).*2 ≠ []) by (by destruct (pop E)).
  destruct (copy_many E _ Hvals k W Hlive) as (srcs & Hlen & Hsrcs & Hmany).
  assert (Hget : get_random_solutions k E W =
                 (Ok (seq (length (heap W)) k), E, after_copies W srcs)).
  { unfold get_random_solutions, mbindM at 1, get_env.
    rewrite decide_False; [done|]. unfold size. by destruct (pop E). }
  assert (Hold : ∀ b, b ∈ (pop E).*2 →
                   heap (after_copies W srcs) !! b = heap W !! b).
  { intros b Hb. unfold after_copies. simpl. apply lookup_app_l, Hlive, Hb. }
  assert (Hfresh : ∀ a, a ∈ seq (length (heap W)) k → a ∉ (pop E).*2).
  { intros a Ha Hb. apply elem_of_seq in Ha. apply Hlive in Hb. lia. }
  exists (seq (length (heap W)) k), (after_copies W srcs).
  split; [done|]. split; [apply length_seq|]. split; [|split; [apply NoDup_seq|]].
  - intros a Ha. apply elem_of_seq in Ha.
    destruct (lookup_lt_is_Some_2 srcs (a - length (heap W))) as [b Hb]; [lia|].
    assert (b ∈ (pop E).*2) as Hin by (eapply Hsrcs, list_elem_of_lookup_2, Hb).
    exists b, (deref W b). split; [done|]. split.
    + apply list_lookup_lookup_total_lt, Hlive, Hin.
    + unfold after_copies. simpl.
      rewrite lookup_app_r by lia. by rewrite list_lookup_fmap, Hb.
  - split; [done|]. split; [done|]. split.
    + intros a v b Ha Hb. unfold mutate. simpl.
      rewrite list_lookup_insert_ne; [by apply Hold|].
      intros ->. by apply (Hfresh b).
    + intros name op Hop. unfold run_agent, mbindM at 1, get_env.
      rewrite Hop. by rewrite (bind_ok _ _ _ _ _ _ _ Hget).
Qed.

Lemma get_random_solutions_copies_witness :
  size env1 = 1%nat ∧
  ∃ picks W',
    get_random_solutions 2 env1 world1 = (Ok picks, env1, W') ∧
    length picks = 2%nat ∧
    (∀ a, a ∈ picks →
       ∃ b v, b ∈ (pop env1).*2 ∧ heap world1 !! b = Some v ∧ heap W' !! a = Some v) ∧
    NoDup picks ∧
    (∀ a, a ∈ picks → a ∉ (pop env1).*2) ∧
    (∀ b, b ∈ (pop env1).*2 → heap W' !! b = heap world1 !! b) ∧
    (∀ a v b, a ∈ picks → b ∈ (pop env1).*2 →
       heap (mutate a v W') !! b = heap world1 !! b) ∧
    (∀ name op, dict_get (agents env1) name = Some (op, 2%nat) →
       run_agent name env1 world1 = (new <- call op picks ;; add_solution new) env1 W').
Proof.
  split; [reflexivity|].
  apply (get_random_solutions_copies 2 env1 world1).
  - discriminate.
  - intros a Ha. simpl in Ha. apply list_elem_of_singleton in Ha as ->. simpl. lia.
Defined.

(** * Pruning: remove_dominated *)

Lemma lex_lt_irrefl xs : lex_lt xs xs = false.
Proof.
  induction xs as [|x xs IH]; simpl; [done|].
  rewrite IH, Z.ltb_irrefl. by rewrite andb_false_r.
Qed.

Lemma lex_lt_trans xs ys zs :
  lex_lt xs ys = true → lex_lt ys zs = true → lex_lt xs zs = true.
Proof.
  revert ys zs. induction xs as [|x xs IH]; intros [|y ys] [|z zs]; simpl; try done.
  rewrite !orb_true_iff, !andb_true_iff, !Z.ltb_lt, !Z.eqb_eq.
  intros [? | [? Hxy]] [? | [? Hyz]]; [left; lia.. |].
  right. split; [lia|]. by apply (IH ys).
Qed.

Lemma diffs_lex_lt xs ys :
  Forall (λ d, 0 <= d) (map2 (λ x y, y - x) xs ys) →
  Exists (λ d, 0 < d) (map2 (λ x y, y - x) xs ys) →
  lex_lt xs ys = true.
Proof.
  revert ys. induction xs as [|x xs IH]; intros [|y ys]; simpl;
    try (by intros _ ?%Exists_nil).
  rewrite Forall_cons, Exists_cons, orb_true_iff, andb_true_iff, Z.ltb_lt, Z.eqb_eq.
  intros [Hx Hall] [Hpos | Hex]; [left; lia|].
  destruct (decide (x < y)); [by left | right].
  split; [lia | by apply IH].
Qed.

Lemma _dominates_lex_lt p q :
  _dominates p q = Ok true → lex_lt (scores p) (scores q) = true.
Proof.
  rewrite _dominates_true_diffs. intros [? ?]. by apply diffs_lex_lt.
Qed.

(** A non-empty population has a key that none of its keys dominates. *)
Lemma least_key (keys : list evaluation) :
  keys ≠ [] →
  ∃ m, m ∈ keys ∧ ∀ p, p ∈ keys → lex_lt (scores p) (scores m) = false.
Proof.
  induction keys as [|a keys IH]; [done|]. intros _.
  destruct keys as [|b keys].
  - exists a. split; [by left|].
    intros p ->%list_elem_of_singleton. apply lex_lt_irrefl.
  - destruct IH as (m & Hm & Hleast); [done|].
    destruct (lex_lt (scores a) (scores m)) eqn:Ham.
    + exists a. split; [by left|].
      intros p [-> | Hp]%elem_of_cons; [apply lex_lt_irrefl|].
      destruct (lex_lt (scores p) (scores a)) eqn:Hpa; [|done].
      rewrite <- (Hleast p Hp). symmetry. by eapply lex_lt_trans.
    + exists m. split; [by right|].
      intros p [-> | Hp]%elem_of_cons; auto.
Qed.

Lemma nds_nonempty keys out : keys ≠ [] → nds keys = Ok out → out ≠ [].
Proof.
  intros Hne Hout. destruct (least_key keys Hne) as (m & Hm & Hleast).
  apply reduce_nds_inv in Hout as [Hmem _].
  assert (m ∈ out) as Hin; [|by intros ->; apply elem_of_nil in Hin].
  apply Hmem. split; [done|]. intros p Hp Hd.
  apply _dominates_lex_lt in Hd. rewrite Hleast in Hd by done. done.
Qed.

(** [remove_dominated], step by step. *)
Lemma remove_dominated_unfold E W :
  remove_dominated E W =
  match nds (pop E).*1 with
  | Raise e => (Raise e, E, W)
  | Ok out =>
      match select (_fits_constraints (constraints_json W)) out with
      | Raise e => (Raise e, E, W)
      | Ok new =>
          match restrict (pop E) new with
          | Raise e => (Raise e, E, W)
          | Ok pop' => (Ok (), set_pop pop' E, W)
          end
      end
  end.
Proof.
  unfold remove_dominated, mbindM, get_env, get_world, lift, put_env.
  destruct (nds _); [|done]. destruct (select _ _); [|done].
  by destruct (restrict _ _).
Qed.

(** Pruning leaves the world as it is and reads only the constraints
    file from it. *)
Lemma remove_dominated_world E W r E' W' :
  remove_dominated E W = (r, E', W') → W' = W.
Proof.
  rewrite remove_dominated_unfold.
  destruct (nds _); [|by intros [= ]]. destruct (select _ _); [|by intros [= ]].
  destruct (restrict _ _); by intros [= ].
Qed.

(** C4, as amended: when the constraint source cannot be loaded and the
    population is not empty, [remove_dominated] raises and leaves the
    population as it was; when every key has at least one score, what it
    raises is the error of the load.  The final pruning of [evolve] then
    raises out of the run. *)
Theorem remove_dominated_fails_loudly (E : Environment) (W : World) :
  unloadable (constraints_json W) → pop E ≠ [] →
  (∃ e, remove_dominated E W = (Raise e, E, W)) ∧
  (∀ e, load_json (constraints_json W) = Raise e →
        (∀ k, k ∈ (pop E).*1 → k ≠ []) →
        remove_dominated E W = (Raise e, E, W)) ∧
  (∀ dom status sync, ∃ e W', evolve 0 dom status sync E W = (Raise e, E, W')).
Proof.
  intros [e0 Hload] Hpop.
  assert (Hkeys : (pop E).*1 ≠ []) by (by destruct (pop E)).
  assert (Hfits : ∀ out, out ≠ [] →
            select (_fits_constraints (constraints_json W)) out = Raise e0).
  { intros [|k out] Hout; [done|]. apply (select_raises _ _ k); [by left|].
    intros y _. unfold _fits_constraints. by rewrite Hload. }
  assert (Hraise : ∀ W1, constraints_json W1 = constraints_json W →
            ∃ e, remove_dominated E W1 = (Raise e, E, W1)).
  { intros W1 HW1. rewrite remove_dominated_unfold, HW1.
    destruct (nds _) as [out|e] eqn:Hout; [|eauto].
    rewrite Hfits by (by eapply nds_nonempty). eauto. }
  split; [by apply Hraise|]. split.
  - intros e He Hne. rewrite Hload in He. injection He as <-.
    rewrite remove_dominated_unfold.
    destruct (reduce_nds_returns _ _ Hne Hne) as [out Hout].
    unfold nds. rewrite Hout. rewrite Hfits; [done|]. by eapply nds_nonempty.
  - intros dom status sync.
    destruct (Hraise (set_clock_pos (S (clock_pos W)) W) eq_refl) as [e He].
    exists e, (set_clock_pos (S (clock_pos W)) W).
    unfold evolve, mbindM at 1, time_time. unfold mbindM at 1, get_env.
    unfold mbindM at 1. simpl. unfold ret.
    by rewrite (bind_raise _ _ _ _ _ _ _ He).
Qed.

Lemma remove_dominated_fails_loudly_witness :
  unloadable (constraints_json world1) ∧ pop env1 ≠ [] ∧
  remove_dominated env1 world1 = (Raise FileNotFoundError, env1, world1).
Proof.
  split; [by exists FileNotFoundError|]. split; [discriminate|].
  apply (remove_dominated_fails_loudly env1 world1).
  - by exists FileNotFoundError.
  - discriminate.
  - reflexivity.
  - intros k Hk. simpl in Hk. by apply list_elem_of_singleton in Hk as ->.
Defined.

(** C4, as stated, fails on an empty population: no key is checked, the
    missing constraints file is never opened, and [remove_dominated]
    returns normally. *)
Lemma remove_dominated_empty_population :
  unloadable (constraints_json world0) ∧
  remove_dominated init world0 = (Ok (), init, world0).
Proof.
  split; [by exists FileNotFoundError | reflexivity].
Qed.

(** * The sync step of evolve *)

Lemma merge_saved_unreadable E W e :
  load_pickle (solutions_dat W) = Raise e → merge_saved E W = (Raise e, E, W).
Proof.
  intros H. unfold merge_saved, mbindM, get_world, lift. by rewrite H.
Qed.

(** C5: when the checkpoint cannot be read or deserialized, the sync
    step catches the error and prints it; the merge changes neither the
    population nor the store; pruning and the checkpoint write then run
    on the in-memory population, and the step returns normally whenever
    the pruning does, with the pruned population written to the
    checkpoint. *)
Theorem sync_saved_unreadable (E : Environment) (W : World) (e : exn) :
  load_pickle (solutions_dat W) = Raise e →
  try_except merge_saved (λ e, print (OutExn e)) E W
    = (Ok (), E, set_stdout (stdout W ++ [OutExn e]) W) ∧
  sync_saved E W
    = (remove_dominated ;;; save) E (set_stdout (stdout W ++ [OutExn e]) W) ∧
  (∀ E' W', remove_dominated E (set_stdout (stdout W ++ [OutExn e]) W)
              = (Ok (), E', W') →
     sync_saved E W
       = (Ok (), E', set_solutions_dat (PickleDict (snapshot E' W')) W')).
Proof.
  intros Hload.
  assert (Htry : try_except merge_saved (λ e, print (OutExn e)) E W
                 = (Ok (), E, set_stdout (stdout W ++ [OutExn e]) W)).
  { unfold try_except. by rewrite (merge_saved_unreadable E W e Hload). }
  split; [done|]. split.
  - unfold sync_saved. by rewrite (bind_ok _ _ _ _ _ _ _ Htry).
  - intros E' W' Hprune. unfold sync_saved.
    rewrite (bind_ok _ _ _ _ _ _ _ Htry), (bind_ok _ _ _ _ _ _ _ Hprune).
    reflexivity.
Qed.

Lemma sync_saved_unreadable_witness :
  load_pickle (solutions_dat world2) = Raise UnpicklingError ∧
  sync_saved env1 world2
    = (Ok (), env1,
       set_solutions_dat (PickleDict [([("total"%string, 1)], [[1; 0]])])
         (set_stdout [OutExn UnpicklingError] world2)).
Proof.
  split; [reflexivity|].
  apply (sync_saved_unreadable env1 world2 UnpicklingError);
    [reflexivity | vm_compute; reflexivity].
Defined.

(** * Stored references stay live *)

Lemma live_init W : live init W.
Proof. by intros a ?%elem_of_nil. Qed.

Lemma dict_get_values {K V} `{EqDecision K} (d : list (K * V)) k v :
  dict_get d k = Some v → v ∈ d.*2.
Proof.
  induction d as [|[k' v'] d IH]; simpl; [done|].
  case_decide; [intros [= ->]; by left | right; auto].
Qed.

Lemma dict_set_values {K V} `{EqDecision K} (d : list (K * V)) k v a :
  a ∈ (dict_set d k v).*2 → a = v ∨ a ∈ d.*2.
Proof.
  induction d as [|[k' v'] d IH]; simpl.
  - intros ->%list_elem_of_singleton. by left.
  - case_decide; simpl; rewrite !elem_of_cons; intros [-> | Ha]; auto.
    destruct (IH Ha); auto.
Qed.

Lemma restrict_values d new d' :
  restrict d new = Ok d' → ∀ a, a ∈ d'.*2 → a ∈ d.*2.
Proof.
  revert d'. induction new as [|k new IH]; simpl; intros d' H.
  - injection H as <-. by intros a ?%elem_of_nil.
  - destruct (dict_get d k) as [v|] eqn:Hk; [|done].
    destruct (restrict d new) as [rest|]; [simpl in H | done].
    injection H as <-. simpl. intros a [-> | Ha]%elem_of_cons.
    + by eapply dict_get_values.
    + by apply (IH rest).
Qed.

Lemma add_solution_live E W sol r E' W' :
  live E W → (sol < length (heap W))%nat →
  add_solution sol E W = (r, E', W') → live E' W'.
Proof.
  intros Hlive Hsol. unfold add_solution, mbindM, get_env, get_world, lift, put_env.
  destruct (evaluate _ _) as [ev|]; intros [= <- <- <-]; [|done].
  intros b [-> | Hb]%dict_set_values; auto.
Qed.

Lemma sampling_live k E W r E' W' :
  live E W → get_random_solutions k E W = (r, E', W') → live E' W'.
Proof.
  intros Hlive. unfold get_random_solutions, mbindM at 1, get_env.
  case_decide as Hsize; [by intros [= <- <- <-]|].
  assert (Hvals : (pop E).*2 ≠ []) by (unfold size in Hsize; by destruct (pop E)).
  destruct (copy_many E _ Hvals k W Hlive) as (srcs & _ & _ & ->).
  intros [= <- <- <-] b Hb. simpl. rewrite length_app.
  specialize (Hlive b Hb). lia.
Qed.

Lemma remove_dominated_live E W r E' W' :
  live E W → remove_dominated E W = (r, E', W') → live E' W'.
Proof.
  intros Hlive. rewrite remove_dominated_unfold.
  destruct (nds _) as [out|]; [|by intros [= <- <- <-]].
  destruct (select _ _) as [new|]; [|by intros [= <- <- <-]].
  destruct (restrict _ _) as [pop'|] eqn:Hr; intros [= <- <- <-]; [|done].
  intros b Hb. apply Hlive. by eapply restrict_values.
Qed.

(** * The model at work *)

(** The sample environment is what registering one objective and one
    agent and adding one solution builds. *)
Example setup_env1 :
  (add_fitness_criteria "total" total ;;;
   add_agent "overlay" overlay 2 ;;;
   sol <- alloc [[1; 0]] ;;
   add_solution sol) init world0 = (Ok (), env1, world1).
Proof. reflexivity. Qed.

(** One pass of [evolve] on it, pruning, reporting and syncing at i = 0
    with a corrupt checkpoint on disk: the run ends normally, the
    overlay of two copies replaces the stored solution, and the pruned
    population is written back. *)
Example evolve_one_pass :
  let '(r, E, W) := evolve 1 10 20 5 env1 world2 in
  r = Ok () ∧
  pop E = [([("total"%string, 1)], 3%nat)] ∧
  heap W = [[[1; 0]]; [[1; 0]]; [[1; 0]]; [[1; 0]]] ∧
  stdout W = [OutIteration 0; OutSize 1; OutReport [[("total"%string, 1)]];
              OutExn UnpicklingError;
              OutPopulation [([("total"%string, 1)], [[1; 0]])]] ∧
  solutions_dat W = PickleDict [([("total"%string, 1)], [[1; 0]])].
Proof. vm_compute. by repeat split. Qed.

(** * Further properties of the engine *)

(** ** Dominance and the fold *)

(** X1: [_dominates] raises exactly when one of the two evaluations has
    no score, and what it raises is ValueError. *)
Theorem dominates_raises (p q : evaluation) (e : exn) :
  _dominates p q = Raise e ↔ e = ValueError ∧ (p = [] ∨ q = []).
Proof.
  rewrite _dominates_unfold. unfold diffs, scores.
  destruct p as [|[? ?] p], q as [|[? ?] q]; simpl;
    (split; [intros [= <-] | intros [-> Hpq]]); try done; auto.
  by destruct Hpq.
Qed.

Lemma list_difference_sublist {A} `{EqDecision A} (l k : list A) :
  list_difference l k `sublist_of` l.
Proof.
  induction l as [|x l IH]; simpl; [done|].
  case_decide; [by apply sublist_cons | by apply sublist_skip].
Qed.

Lemma select_sublist {A} (c : A → result bool) xs r :
  select c xs = Ok r → r `sublist_of` xs.
Proof.
  revert r. induction xs as [|x xs IH]; simpl; intros r H.
  - by injection H as <-.
  - destruct (c x) as [b|]; [simpl in H | done].
    destruct (select c xs) as [r'|]; [simpl in H | done].
    injection H as <-. destruct b; [apply sublist_skip | apply sublist_cons]; auto.
Qed.


Lemma reduce_nds_sublist order S out :
  reduce _reduce_nds order S = Ok out → out `sublist_of` S.
Proof.
  revert S. induction order as [|p order IH]; simpl; intros S H.
  - by injection H as <-.
  - destruct (_reduce_nds S p) as [S1|] eqn:H1; [simpl in H | done].
    transitivity S1; [by apply IH|].
    unfold _reduce_nds in H1. destruct (select _ S); [simpl in H1 | done].
    injection H1 as <-. apply list_difference_sublist.
Qed.



(** ** The constraint filter *)

(** X3: the filter is monotone in the limits: a vector accepted under
    one mapping is accepted under every mapping that configures at least
    the same objectives with limits at least as large. *)
Theorem fits_constraints_monotone (data data' : gmap string Z) (k : evaluation) :
  (∀ o limit, data !! o = Some limit →
     ∃ limit', data' !! o = Some limit' ∧ limit <= limit') →
  _fits_constraints (JsonObject data) k = Ok true →
  _fits_constraints (JsonObject data') k = Ok true.
Proof.
  intros Hloose. unfold _fits_constraints. simpl. rewrite !check_scores_true.
  intros Hfit o s Hin. destruct (Hfit o s Hin) as (l & Hl & Hle).
  destruct (Hloose o l Hl) as (l' & Hl' & Hle'). exists l'. split; [done | lia].
Qed.

Lemma fits_constraints_monotone_witness :
  _fits_constraints (JsonObject conflicts_only) [("conflicts"%string, 0)] = Ok true ∧
  _fits_constraints (JsonObject both_limits) [("conflicts"%string, 0)] = Ok true.
Proof.
  split; [reflexivity|].
  apply (fits_constraints_monotone conflicts_only both_limits); [|reflexivity].
  intros o limit Ho. unfold conflicts_only in Ho.
  apply lookup_singleton_Some in Ho as [<- <-].
  exists 2. split; [reflexivity | lia].
Defined.

Lemma check_scores_app data pre k :
  within_limits data pre → check_scores data (pre ++ k) = check_scores data k.
Proof.
  unfold within_limits. induction pre as [|[o s] pre IH]; simpl; intros H; [done|].
  destruct (H o s) as (l & -> & Hle); [by left|].
  apply Z.ltb_ge in Hle. rewrite Hle. apply IH. intros o' s' Hin. apply H. by right.
Qed.

(** X4: the scan stops at the first pair that is out of order: when
    every pair before it is within its limit, a pair whose objective has
    no entry makes the filter raise KeyError and a pair above its limit
    makes it return False, whatever follows; a pair within its limit
    passes the decision on to the pairs after it. *)
Theorem fits_constraints_first_offence
    (data : gmap string Z) (pre post : evaluation) (o : string) (s : score) :
  within_limits data pre →
  _fits_constraints (JsonObject data) (pre ++ (o, s) :: post) =
  match data !! o with
  | None => Raise KeyError
  | Some limit =>
      if limit <? s then Ok false else _fits_constraints (JsonObject data) post
  end.
Proof.
  intros Hpre. unfold _fits_constraints. simpl. by rewrite check_scores_app.
Qed.

Lemma fits_constraints_first_offence_witness :
  _fits_constraints (JsonObject both_limits)
    ([("conflicts"%string, 1)] ++ ("unwilling"%string, 12) :: [("total"%string, 0)])
  = Ok false.
Proof.
  etrans; [apply (fits_constraints_first_offence both_limits
             [("conflicts"%string, 1)] [("total"%string, 0)] "unwilling" 12)
          | reflexivity].
  intros o s Hin. apply list_elem_of_singleton in Hin as [= -> ->].
  exists 2. split; [reflexivity | lia].
Defined.

(** ** Dictionaries *)

Section dict.
Context {K V : Type} `{EqDecision K}.
Implicit Types (d : list (K * V)) (k : K) (v : V).

Lemma dict_get_set_eq d k v : dict_get (dict_set d k v) k = Some v.
Proof.
  induction d as [|[k' v'] d IH]; simpl.
  - by rewrite decide_True.
  - case_decide as Hk; simpl; [by rewrite decide_True|]. by rewrite decide_False.
Qed.

Lemma dict_get_set_ne d k v k' :
  k ≠ k' → dict_get (dict_set d k v) k' = dict_get d k'.
Proof.
  intros Hne. induction d as [|[k1 v1] d IH]; simpl.
  - by rewrite decide_False.
  - case_decide as Hk; simpl.
    + subst k1. by rewrite !decide_False.
    + by rewrite IH.
Qed.


Lemma dict_get_Some_elem d k v : dict_get d k = Some v → (k, v) ∈ d.
Proof.
  induction d as [|[k' v'] d IH]; simpl; [done|].
  case_decide as Hk; [intros [= ->]; subst; by left | right; auto].
Qed.


Lemma dict_get_unique d k v : NoDup d.*1 → (k, v) ∈ d → dict_get d k = Some v.
Proof.
  induction d as [|[k' v'] d IH]; simpl; [by intros _ ?%elem_of_nil|].
  intros [Hnotin Hnodup]%NoDup_cons [[= <- <-] | Hin]%elem_of_cons.
  - by rewrite decide_True.
  - case_decide as Hk; [|auto]. subst k'. exfalso. apply Hnotin.
    apply list_elem_of_fmap. by exists (k, v).
Qed.

(** An existing key keeps its place, a new key goes last. *)
Lemma dict_set_keys d k v :
  (dict_set d k v).*1 = if bool_decide (k ∈ d.*1) then d.*1 else d.*1 ++ [k].
Proof.
  induction d as [|[k' v'] d IH].
  - rewrite bool_decide_eq_false_2; [done|]. by intros ?%elem_of_nil.
  - cbn [dict_set]. rewrite (fmap_cons fst (k', v') d). cbn [fst].
    destruct (decide (k' = k)) as [-> | Hk].
    + rewrite bool_decide_eq_true_2; [done|]. by left.
    + rewrite fmap_cons, IH. cbn [fst].
      destruct (bool_decide (k ∈ d.*1)) eqn:Hd.
      * apply bool_decide_eq_true in Hd. rewrite bool_decide_eq_true_2; [done|].
        by right.
      * apply bool_decide_eq_false in Hd. rewrite bool_decide_eq_false_2; [done|].
        rewrite not_elem_of_cons. split; [congruence | done].
Qed.

Lemma dict_set_unique d k v : NoDup d.*1 → NoDup (dict_set d k v).*1.
Proof.
  intros Hd. rewrite dict_set_keys. case_bool_decide as Hk; [done|].
  apply NoDup_app. split; [done|]. split; [|apply NoDup_singleton].
  intros x Hx ->%list_elem_of_singleton. done.
Qed.

End dict.

(** ** add_solution *)

Lemma evaluate_names fs v ev : evaluate fs v = Ok ev → names ev = fs.*1.
Proof.
  revert ev. induction fs as [|[name f] fs IH]; simpl; intros ev H.
  - by injection H as <-.
  - destruct (f v) as [s|]; [simpl in H | done].
    destruct (evaluate fs v) as [rest|]; [simpl in H | done].
    injection H as <-. unfold names in *. simpl. f_equal. by apply IH.
Qed.

(** X5: when every objective returns, [add_solution] files the solution
    under its evaluation, whose names are the registered objectives in
    registration order: a lookup of that key gives the new reference
    (whatever was stored there before), every other key is untouched, an
    existing key keeps its place and a new one goes last.  When an
    objective raises, the exception comes out and nothing is stored. *)
Theorem add_solution_stores (E : Environment) (W : World) (sol : addr) :
  match evaluate (fitness E) (deref W sol) with
  | Ok ev =>
      ∃ E', add_solution sol E W = (Ok (), E', W) ∧
            fitness E' = fitness E ∧ agents E' = agents E ∧
            names ev = (fitness E).*1 ∧
            dict_get (pop E') ev = Some sol ∧
            (∀ k, k ≠ ev → dict_get (pop E') k = dict_get (pop E) k) ∧
            (pop E').*1 = (if bool_decide (ev ∈ (pop E).*1)
                           then (pop E).*1 else (pop E).*1 ++ [ev])
  | Raise e => add_solution sol E W = (Raise e, E, W)
  end.
Proof.
  unfold add_solution, mbindM, get_env, get_world, lift, put_env.
  destruct (evaluate _ _) as [ev|e] eqn:Hev; [|done].
  eexists. split; [done|]. simpl. split; [done|]. split; [done|].
  split; [by eapply evaluate_names|]. split; [apply dict_get_set_eq|].
  split; [intros k Hk; by apply dict_get_set_ne | apply dict_set_keys].
Qed.

(** ** remove_dominated on the whole state *)

Lemma restrict_keys d new d' : restrict d new = Ok d' → d'.*1 = new.
Proof.
  revert d'. induction new as [|k new IH]; simpl; intros d' H.
  - by injection H as <-.
  - destruct (dict_get d k) as [v|]; [|done].
    destruct (restrict d new) as [rest|]; [simpl in H | done].
    injection H as <-. rewrite fmap_cons. simpl. f_equal. by apply IH.
Qed.










Lemma remove_dominated_keys E W :
  (pop (remove_dominated E W).1.2).*1 `sublist_of` (pop E).*1.
Proof.
  rewrite remove_dominated_unfold.
  destruct (nds _) as [out|] eqn:Hout; [|done].
  destruct (select _ out) as [new|] eqn:Hnew; [|done].
  destruct (restrict _ new) as [pop'|] eqn:Hpop; [|done].
  simpl. rewrite (restrict_keys _ _ _ Hpop).
  transitivity out; [by eapply select_sublist | by eapply reduce_nds_sublist].
Qed.


Lemma remove_dominated_registry E W :
  fitness (remove_dominated E W).1.2 = fitness E.
Proof.
  rewrite remove_dominated_unfold.
  destruct (nds _); [|done]. destruct (select _ _); [|done].
  by destruct (restrict _ _).
Qed.

(** ** The merge of a saved population *)

Lemma merge_loop items E W :
  for_each items (λ item,
    sol <- alloc item.2 ;;
    E <- get_env ;;
    put_env (set_pop (dict_set (pop E) item.1 sol) E)) E W
  = (Ok (), set_pop (merged (pop E) (length (heap W)) items) E,
     set_heap (heap W ++ items.*2) W).
Proof.
  revert E W. induction items as [|[k v] items IH]; intros E W.
  - simpl. unfold ret. destruct E, W; simpl.
    unfold set_pop, set_heap; simpl. by rewrite app_nil_r.
  - cbn [for_each]. unfold mbindM at 1. unfold mbindM at 1 2, alloc, get_env, put_env.
    rewrite IH. destruct E, W; unfold set_pop, set_heap; simpl.
    rewrite length_app, Nat.add_1_r, <- app_assoc. done.
Qed.

Lemma merge_saved_readable E W items :
  solutions_dat W = PickleDict items →
  merge_saved E W
  = (Ok (), set_pop (merged (pop E) (length (heap W)) items) E,
     set_heap (heap W ++ items.*2) W).
Proof.
  intros H. unfold merge_saved, mbindM at 1, get_world.
  unfold mbindM at 1, lift. rewrite H. simpl. apply merge_loop.
Qed.

Lemma merged_unique d n items : NoDup d.*1 → NoDup (merged d n items).*1.
Proof.
  revert d n. induction items as [|[k v] items IH]; intros d n Hd; simpl; [done|].
  by apply IH, dict_set_unique.
Qed.

Lemma merged_lookup_other d n items k :
  k ∉ items.*1 → dict_get (merged d n items) k = dict_get d k.
Proof.
  revert d n. induction items as [|[k' v] items IH]; intros d n Hk; simpl; [done|].
  rewrite fmap_cons, not_elem_of_cons in Hk. destruct Hk as [Hne Hk].
  rewrite IH by done. by apply dict_get_set_ne.
Qed.

Lemma merged_lookup_item d n items i k v :
  NoDup items.*1 → items !! i = Some (k, v) →
  dict_get (merged d n items) k = Some (n + i)%nat.
Proof.
  revert d n i. induction items as [|[k' v'] items IH]; intros d n i Hnd Hi; [done|].
  rewrite fmap_cons in Hnd. apply NoDup_cons in Hnd as [Hnotin Hnd].
  destruct i as [|i]; simpl in *.
  - injection Hi as -> ->. rewrite merged_lookup_other by done.
    rewrite Nat.add_0_r. apply dict_get_set_eq.
  - rewrite (IH _ _ i) by done. f_equal. lia.
Qed.

(** X9: a dictionary keeps one entry per key whatever the engine does
    to the population: [add_solution], [remove_dominated] and the merge
    of a saved population all leave the keys of [pop] free of
    duplicates, whether they return or raise. *)
Theorem unique_keys_kept (E : Environment) (W : World) :
  unique_keys E →
  (∀ sol, unique_keys (add_solution sol E W).1.2) ∧
  unique_keys (remove_dominated E W).1.2 ∧
  unique_keys (merge_saved E W).1.2.
Proof.
  unfold unique_keys. intros Hu. split; [|split].
  - intros sol. unfold add_solution, mbindM, get_env, get_world, lift, put_env.
    destruct (evaluate _ _); simpl; [by apply dict_set_unique | done].
  - eapply sublist_NoDup; [exact Hu | apply remove_dominated_keys].
  - destruct (solutions_dat W) as [| |items] eqn:Hf.
    + unfold merge_saved, mbindM, get_world, lift. by rewrite Hf.
    + unfold merge_saved, mbindM, get_world, lift. by rewrite Hf.
    + rewrite (merge_saved_readable E W items Hf). simpl. by apply merged_unique.
Qed.

Lemma unique_keys_kept_witness :
  unique_keys (remove_dominated env2 world3).1.2.
Proof.
  apply (unique_keys_kept env2 world3). unfold unique_keys.
  apply (bool_decide_unpack _). by vm_compute.
Defined.

(** X10: the keys stay evaluations over the registered objectives: when
    every key of the population lists the registered objectives in
    registration order, so does every key after [add_solution] and
    after [remove_dominated]; and with at least one objective registered
    the dominance fold of the next pruning returns. *)
Theorem keyed_by_registry_kept (E : Environment) (W : World) :
  keyed_by_registry E →
  (∀ sol, keyed_by_registry (add_solution sol E W).1.2) ∧
  keyed_by_registry (remove_dominated E W).1.2 ∧
  (fitness E ≠ [] → ∃ out, nds (pop E).*1 = Ok out).
Proof.
  unfold keyed_by_registry, same_objectives. intros Hk. split; [|split].
  - intros sol. unfold add_solution, mbindM, get_env, get_world, lift, put_env.
    destruct (evaluate _ _) as [ev|] eqn:Hev; simpl; [|done].
    rewrite dict_set_keys. case_bool_decide; [done|].
    apply Forall_app. split; [done|]. apply Forall_singleton.
    by eapply evaluate_names.
  - rewrite remove_dominated_registry.
    rewrite Forall_forall in Hk. apply Forall_forall. intros k Hin.
    apply Hk. eapply elem_of_sublist; [exact Hin | apply remove_dominated_keys].
  - intros Hfit.
    assert (Hne : ∀ k, k ∈ (pop E).*1 → k ≠ []).
    { intros k Hin. apply (same_objectives_nonempty (fitness E).*1 (pop E).*1); [|done..].
      by destruct (fitness E). }
    apply (reduce_nds_returns _ _ Hne Hne).
Qed.

Lemma keyed_by_registry_kept_witness :
  keyed_by_registry (remove_dominated env2 world3).1.2 ∧
  ∃ out, nds (pop env2).*1 = Ok out.
Proof.
  assert (H : keyed_by_registry env2) by (by repeat constructor).
  split.
  - apply (keyed_by_registry_kept env2 world3 H).
  - apply (keyed_by_registry_kept env2 world3 H). discriminate.
Defined.

(** X11: when the checkpoint is readable, the merge returns; every
    loaded array becomes a new object, in file order, after the objects
    that were there; each loaded key is then bound to the object loaded
    for it, whatever it was bound to before, and every other key keeps
    its reference. *)
Theorem merge_saved_loads (E : Environment) (W : World)
    (items : list (evaluation * solution)) :
  solutions_dat W = PickleDict items → NoDup items.*1 →
  ∃ E', merge_saved E W = (Ok (), E', set_heap (heap W ++ items.*2) W) ∧
    fitness E' = fitness E ∧ agents E' = agents E ∧
    (∀ k v, (k, v) ∈ items →
       ∃ a, dict_get (pop E') k = Some a ∧ (length (heap W) ≤ a)%nat ∧
            (heap W ++ items.*2) !! a = Some v) ∧
    (∀ k, k ∉ items.*1 → dict_get (pop E') k = dict_get (pop E) k).
Proof.
  intros Hf Hnd. eexists. split; [by apply merge_saved_readable|].
  simpl. split; [done|]. split; [done|]. split.
  - intros k v [i Hi]%list_elem_of_lookup.
    exists (length (heap W) + i)%nat.
    split; [by eapply merged_lookup_item|]. split; [lia|].
    rewrite lookup_app_r by lia.
    replace (length (heap W) + i - length (heap W))%nat with i by lia.
    by rewrite list_lookup_fmap, Hi.
  - intros k Hk. by apply merged_lookup_other.
Qed.

Lemma merge_saved_loads_witness :
  ∃ E', merge_saved env2 world4
        = (Ok (), E', set_heap (heap world4 ++ saved_items.*2) world4) ∧
    fitness E' = fitness env2 ∧ agents E' = agents env2 ∧
    (∀ k v, (k, v) ∈ saved_items →
       ∃ a, dict_get (pop E') k = Some a ∧ (length (heap world4) ≤ a)%nat ∧
            (heap world4 ++ saved_items.*2) !! a = Some v) ∧
    (∀ k, k ∉ saved_items.*1 → dict_get (pop E') k = dict_get (pop env2) k).
Proof.
  apply (merge_saved_loads env2 world4 saved_items); [reflexivity|].
  apply (bool_decide_unpack _). by vm_compute.
Defined.

(** ** Saving and merging back *)









(** ** The sync step, whatever the checkpoint *)

Lemma try_merge_saved E W :
  ∃ E1 W1,
    try_except merge_saved (λ e, print (OutExn e)) E W = (Ok (), E1, W1) ∧
    solutions_dat W1 = solutions_dat W ∧
    constraints_json W1 = constraints_json W.
Proof.
  unfold try_except. destruct (solutions_dat W) as [| |items] eqn:Hf.
  - rewrite (merge_saved_unreadable E W FileNotFoundError) by (by rewrite Hf).
    by eexists _, _.
  - rewrite (merge_saved_unreadable E W UnpicklingError) by (by rewrite Hf).
    by eexists _, _.
  - rewrite (merge_saved_readable E W items Hf). by eexists _, _.
Qed.

(** X13: the sync step raises only what its pruning raises.  The [try]
    block always comes out normally, with both files as they were; if
    the pruning that follows raises, the step raises the same exception
    and the checkpoint is left as it was; if it returns, the step
    returns and the checkpoint holds exactly the pruned population. *)
Theorem sync_saved_outcome (E : Environment) (W : World) :
  ∃ E1 W1,
    try_except merge_saved (λ e, print (OutExn e)) E W = (Ok (), E1, W1) ∧
    solutions_dat W1 = solutions_dat W ∧
    let '(r, E', W') := remove_dominated E1 W1 in
    match r with
    | Ok _ =>
        sync_saved E W
        = (Ok (), E', set_solutions_dat (PickleDict (snapshot E' W')) W')
    | Raise e =>
        sync_saved E W = (Raise e, E', W') ∧ solutions_dat W' = solutions_dat W
    end.
Proof.
  destruct (try_merge_saved E W) as (E1 & W1 & Htry & Hdat & _).
  exists E1, W1. split; [done|]. split; [done|].
  destruct (remove_dominated E1 W1) as [[r E'] W'] eqn:Hr.
  unfold sync_saved. rewrite (bind_ok _ _ _ _ _ _ _ Htry).
  destruct r as [[]|e].
  - by rewrite (bind_ok _ _ _ _ _ _ _ Hr).
  - rewrite (bind_raise _ _ _ _ _ _ _ Hr). split; [done|].
    apply remove_dominated_world in Hr as ->. done.
Qed.

(** ** Sampling and run_agent at the edges *)

(** X14: what sampling costs: on a non-empty store [get_random_solutions
    k] consumes exactly k random draws and allocates exactly k objects,
    at the k addresses after the existing ones; the objects that were
    there, the clock, both files and the console are left as they were. *)
Theorem get_random_solutions_cost (k : nat) (E : Environment) (W : World) :
  pop E ≠ [] → live E W →
  ∃ W', get_random_solutions k E W = (Ok (seq (length (heap W)) k), E, W') ∧
    rnd_pos W' = (rnd_pos W + k)%nat ∧
    length (heap W') = (length (heap W) + k)%nat ∧
    heap W `prefix_of` heap W' ∧
    clock_pos W' = clock_pos W ∧
    constraints_json W' = constraints_json W ∧
    solutions_dat W' = solutions_dat W ∧
    stdout W' = stdout W.
Proof.
  intros Hpop Hlive.
  assert (Hvals : (pop E).*2 ≠ []) by (by destruct (pop E)).
  destruct (copy_many E _ Hvals k W Hlive) as (srcs & Hlen & _ & Hmany).
  exists (after_copies W srcs). split.
  - unfold get_random_solutions, mbindM at 1, get_env.
    rewrite decide_False; [done|]. unfold size. by destruct (pop E).
  - simpl. rewrite length_app, length_fmap, Hlen.
    split; [done|]. split; [done|]. split; [by apply prefix_app_r|]. done.
Qed.

Lemma get_random_solutions_cost_witness :
  ∃ W', get_random_solutions 2 env2 world3
        = (Ok (seq (length (heap world3)) 2), env2, W') ∧
    rnd_pos W' = (rnd_pos world3 + 2)%nat ∧
    length (heap W') = (length (heap world3) + 2)%nat ∧
    heap world3 `prefix_of` heap W' ∧
    clock_pos W' = clock_pos world3 ∧
    constraints_json W' = constraints_json world3 ∧
    solutions_dat W' = solutions_dat world3 ∧
    stdout W' = stdout world3.
Proof.
  apply (get_random_solutions_cost 2 env2 world3); [discriminate|].
  intros a Ha. simpl in Ha. rewrite !elem_of_cons, elem_of_nil in Ha. simpl.
  destruct Ha as [-> | [-> | [-> | []]]]; lia.
Defined.

(** X15: [run_agent] at the edges.  A name that is not registered raises
    KeyError and changes nothing.  On an empty population the agent is
    called with the empty list, whatever its arity, and no random number
    is drawn for the picks. *)
Theorem run_agent_edges (name : string) (E : Environment) (W : World) :
  (dict_get (agents E) name = None → run_agent name E W = (Raise KeyError, E, W)) ∧
  (∀ op k, dict_get (agents E) name = Some (op, k) → size E = 0%nat →
     run_agent name E W = (new <- call op [] ;; add_solution new) E W).
Proof.
  split.
  - intros H. unfold run_agent, mbindM, get_env. by rewrite H.
  - intros op k H Hsize. unfold run_agent, mbindM at 1, get_env. rewrite H.
    unfold mbindM at 1, get_random_solutions, mbindM at 1, get_env.
    by rewrite decide_True.
Qed.

Lemma run_agent_edges_witness :
  run_agent "swap_rows" env1 world1 = (Raise KeyError, env1, world1).
Proof.
  apply (proj1 (run_agent_edges "swap_rows" env1 world1)). reflexivity.
Defined.

(** ** evolve at the edges *)

Lemma evolve_zero_unfold dom status sync E W :
  evolve 0 dom status sync E W =
  (remove_dominated ;;;
   E <- get_env ;; W <- get_world ;; print (OutPopulation (snapshot E W)))
    E (set_clock_pos (S (clock_pos W)) W).
Proof. reflexivity. Qed.

(** X16: [evolve] for zero iterations reads the clock once, prunes once
    and prints the population it is left with; no agent runs, no random
    number is drawn, no interval is evaluated (an interval of 0 is
    harmless) and the checkpoint is neither read nor written.  If the
    pruning raises, the exception comes out of [evolve]. *)
Theorem evolve_zero (dom status sync : nat) (E : Environment) (W : World) :
  let '(r, E', W') := remove_dominated E (set_clock_pos (S (clock_pos W)) W) in
  match r with
  | Ok _ =>
      evolve 0 dom status sync E W
      = (Ok (), E', set_stdout (stdout W' ++ [OutPopulation (snapshot E' W')]) W')
  | Raise e => evolve 0 dom status sync E W = (Raise e, E', W')
  end.
Proof.
  rewrite evolve_zero_unfold.
  destruct (remove_dominated E _) as [[r E'] W'] eqn:Hr.
  destruct r as [[]|e].
  - by rewrite (bind_ok _ _ _ _ _ _ _ Hr).
  - by rewrite (bind_raise _ _ _ _ _ _ _ Hr).
Qed.

(** X17: with no agent registered, [evolve] for one iteration or more
    raises IndexError at its first pick: only the clock was read, the
    population is not even pruned. *)
Theorem evolve_without_agents (n dom status sync : nat) (E : Environment) (W : World) :
  agents E = [] →
  evolve (S n) dom status sync E W
  = (Raise IndexError, E, set_clock_pos (S (clock_pos W)) W).
Proof.
  intros H. unfold evolve, mbindM at 1, time_time. unfold mbindM at 1, get_env.
  rewrite H. reflexivity.
Qed.

Lemma evolve_without_agents_witness :
  evolve 3 10 20 5 env2 world3
  = (Raise IndexError, env2, set_clock_pos 1 world3).
Proof.
  apply (evolve_without_agents 2 10 20 5 env2 world3). reflexivity.
Defined.

(** ** Agents that work on their own copies *)

Lemma sampling_outcome k E W :
  live E W →
  ∃ picks W1,
    get_random_solutions k E W = (Ok picks, E, W1) ∧
    heap W `prefix_of` heap W1 ∧
    (∀ a, a ∈ picks → (length (heap W) ≤ a < length (heap W1))%nat).
Proof.
  intros Hlive. unfold get_random_solutions, mbindM at 1, get_env.
  case_decide as Hsize.
  - exists [], W. split; [done|]. split; [done|]. by intros a ?%elem_of_nil.
  - assert (Hvals : (pop E).*2 ≠ []) by (unfold size in Hsize; by destruct (pop E)).
    destruct (copy_many E _ Hvals k W Hlive) as (srcs & Hlen & _ & ->).
    eexists _, _. split; [done|]. simpl. split; [by apply prefix_app_r|].
    intros a Ha%elem_of_seq. rewrite length_app, length_fmap. lia.
Qed.

Lemma run_agent_confined_outcome name op k E W :
  confined op → live E W → dict_get (agents E) name = Some (op, k) →
  let '(r, E', W') := run_agent name E W in
  live E' W' ∧
  (∀ b, b ∈ (pop E).*2 → heap W' !! b = heap W !! b) ∧
  (∀ e, r = Raise e → E' = E).
Proof.
  intros Hop Hlive Hname.
  destruct (sampling_outcome k E W Hlive) as (picks & W1 & Hget & Hpre & Hfresh).
  unfold run_agent, mbindM at 1, get_env. rewrite Hname.
  rewrite (bind_ok _ _ _ _ _ _ _ Hget).
  unfold mbindM, call. destruct (op picks W1) as [r W2] eqn:Hcall.
  destruct (Hop picks W1 r W2) as (Hgrow & Hkeep & Hret); [|done|].
  { intros a Ha. apply Hfresh in Ha. lia. }
  pose proof (prefix_length _ _ Hpre) as Hlen.
  assert (Hold : ∀ b, b ∈ (pop E).*2 → heap W2 !! b = heap W !! b).
  { intros b Hb. specialize (Hlive b Hb). rewrite Hkeep; [| |lia].
    - symmetry. by apply prefix_lookup_lt.
    - intros Hin. apply Hfresh in Hin. lia. }
  assert (Hlive2 : live E W2).
  { intros b Hb. specialize (Hlive b Hb). lia. }
  destruct r as [new|e]; [|done].
  destruct (add_solution new E W2) as [[r' E'] W'] eqn:Hadd.
  pose proof (add_solution_live E W2 new r' E' W' Hlive2 (Hret new eq_refl) Hadd) as Hl.
  unfold add_solution, mbindM, get_env, get_world, lift, put_env in Hadd.
  destruct (evaluate _ _); injection Hadd as <- <- <-; done.
Qed.

(** X18: an agent that works on the arrays it is handed cannot damage
    the population: whatever [run_agent] does with it, return or raise,
    every solution that was stored keeps its contents and every stored
    reference stays live; and if [run_agent] raises, the population is as
    it was. *)
Theorem run_agent_confined (name : string) (op : agent) (k : nat)
    (E : Environment) (W : World) :
  confined op → live E W → dict_get (agents E) name = Some (op, k) →
  let '(r, E', W') := run_agent name E W in
  live E' W' ∧
  (∀ b, b ∈ (pop E).*2 → heap W' !! b = heap W !! b) ∧
  (∀ e, r = Raise e → E' = E).
Proof. apply run_agent_confined_outcome. Qed.

Lemma env3_live : live env3 world3.
Proof.
  intros a Ha. simpl in Ha. rewrite !elem_of_cons, elem_of_nil in Ha. simpl.
  destruct Ha as [-> | [-> | [-> | []]]]; lia.
Qed.

Lemma randrange_outcome n W r W' :
  randrange n W = (r, W') → heap W' = heap W ∧ (∀ i, r = Ok i → (i < n)%nat).
Proof.
  unfold randrange. case_decide as Hn; intros [= <- <-]; (split; [done|]).
  - done.
  - intros i [= <-]. by apply Nat.mod_upper_bound.
Qed.

Lemma randrange_ok n W :
  n ≠ 0%nat →
  randrange n W
  = (Ok (rnd W (rnd_pos W) mod n)%nat, set_rnd_pos (S (rnd_pos W)) W).
Proof. intros Hn. unfold randrange. by rewrite decide_False. Qed.

(** A write into the first argument is all the agent did. *)
Lemma write_first_confined L rest (m' : solution) W W2 :
  heap W2 = heap W → (L < length (heap W))%nat →
  (length (heap W) ≤ length (heap (mutate L m' W2)))%nat ∧
  (∀ b, b ∉ L :: rest → (b < length (heap W))%nat →
        heap (mutate L m' W2) !! b = heap W !! b) ∧
  (∀ a, Ok L = Ok a → (a < length (heap (mutate L m' W2)))%nat).
Proof.
  intros Hheap HL. unfold mutate. simpl. rewrite Hheap, length_insert.
  split; [done|]. split.
  - intros b Hb _. apply list_lookup_insert_ne. intros ->. apply Hb. by left.
  - by intros a [= <-].
Qed.

Lemma flip_val_confined : confined flip_val.
Proof.
  intros sols W r W' Hlive H. destruct sols as [|L rest]; simpl in H.
  { injection H as <- <-. done. }
  assert (L < length (heap W))%nat as HL by (apply Hlive; by left).
  destruct (randrange _ W) as [[r1|e1] W1] eqn:H1;
    apply randrange_outcome in H1 as [Hh1 _].
  - destruct (randrange _ W1) as [[c|e2] W2] eqn:H2;
      apply randrange_outcome in H2 as [Hh2 _]; injection H as <- <-.
    + apply write_first_confined; [congruence | done].
    + rewrite Hh2, Hh1. done.
  - injection H as <- <-. rewrite Hh1. done.
Qed.

Lemma swap_rows_confined : confined swap_rows.
Proof.
  intros sols W r W' Hlive H. destruct sols as [|L rest]; simpl in H.
  { injection H as <- <-. done. }
  assert (L < length (heap W))%nat as HL by (apply Hlive; by left).
  destruct (randrange _ W) as [[r1|e1] W1] eqn:H1;
    apply randrange_outcome in H1 as [Hh1 _].
  - destruct (randrange _ W1) as [[r2|e2] W2] eqn:H2;
      apply randrange_outcome in H2 as [Hh2 _]; injection H as <- <-.
    + apply write_first_confined; [congruence | done].
    + rewrite Hh2, Hh1. done.
  - injection H as <- <-. rewrite Hh1. done.
Qed.

Lemma run_agent_confined_witness :
  let '(r, E', W') := run_agent "flip_val" env3 world3 in
  live E' W' ∧
  (∀ b, b ∈ (pop env3).*2 → heap W' !! b = heap world3 !! b) ∧
  (∀ e, r = Raise e → E' = env3).
Proof.
  apply (run_agent_confined "flip_val" flip_val 1 env3 world3).
  - apply flip_val_confined.
  - apply env3_live.
  - reflexivity.
Defined.

(** X19: the agents flip_val and swap_rows of assignments.py work on the
    array they are handed: they free nothing, write to no other object
    and return a live reference.  Called with no solution they raise
    IndexError, and on an array without rows they raise ValueError
    before drawing any random number. *)
Theorem flip_val_swap_rows_confined :
  confined flip_val ∧ confined swap_rows ∧
  (∀ W, flip_val [] W = (Raise IndexError, W) ∧
        swap_rows [] W = (Raise IndexError, W)) ∧
  (∀ L rest W, deref W L = [] →
     flip_val (L :: rest) W = (Raise ValueError, W) ∧
     swap_rows (L :: rest) W = (Raise ValueError, W)).
Proof.
  split; [apply flip_val_confined|]. split; [apply swap_rows_confined|].
  split; [done|]. intros L rest W Hm. unfold flip_val, swap_rows. by rewrite Hm.
Qed.

Lemma flip_val_swap_rows_confined_witness :
  flip_val (3%nat :: []) (set_heap (heap world3 ++ [[]]) world3)
  = (Raise ValueError, set_heap (heap world3 ++ [[]]) world3).
Proof.
  apply flip_val_swap_rows_confined. reflexivity.
Defined.

(** ** swap_rows permutes the rows *)

Lemma insert_swap_head {A} (l : list A) j x y :
  l !! j = Some y → y :: <[j := x]> l ≡ₚ x :: l.
Proof.
  revert j. induction l as [|z l IH]; intros [|j] Hj; simplify_eq/=.
  - apply perm_swap.
  - rewrite perm_swap. rewrite (IH j Hj). apply perm_swap.
Qed.

Lemma insert_swap {A} (l : list A) i j a b :
  l !! i = Some a → l !! j = Some b → <[j := a]> (<[i := b]> l) ≡ₚ l.
Proof.
  revert i j. induction l as [|x l IH]; intros [|i] [|j] Hi Hj; simplify_eq/=.
  - done.
  - by apply insert_swap_head.
  - by apply insert_swap_head.
  - f_equiv. by apply IH.
Qed.

(** X20: on an array with at least one row, swap_rows returns the array
    it was handed, after two random draws, with the same rows up to
    their order: the number of rows and every row's contents are kept. *)
Theorem swap_rows_permutes (L : addr) (rest : list addr) (W : World) (m : solution) :
  heap W !! L = Some m → m ≠ [] →
  ∃ m' W', swap_rows (L :: rest) W = (Ok L, W') ∧
    heap W' = <[L := m']> (heap W) ∧
    m' ≡ₚ m ∧
    rnd_pos W' = (rnd_pos W + 2)%nat.
Proof.
  intros HL Hm. assert (deref W L = m) as Hd by (by apply list_lookup_total_correct).
  assert (length m ≠ 0%nat) as Hlen by (by destruct m).
  unfold swap_rows. rewrite Hd, (randrange_ok _ W Hlen). cbv beta iota.
  change (deref (set_rnd_pos (S (rnd_pos W)) W) L) with (deref W L).
  rewrite Hd, (randrange_ok _ _ Hlen). cbv beta iota zeta.
  change (deref (set_rnd_pos ?a (set_rnd_pos ?b W)) L) with (deref W L).
  rewrite Hd.
  eexists _, _. split; [reflexivity|]. split; [done|]. split; [|simpl; lia].
  apply insert_swap; apply list_lookup_lookup_total_lt;
    by apply Nat.mod_upper_bound.
Qed.

Lemma swap_rows_permutes_witness :
  ∃ m' W', swap_rows [1%nat] world3 = (Ok 1%nat, W') ∧
    heap W' = <[1%nat := m']> (heap world3) ∧
    m' ≡ₚ [[1]; [3]] ∧
    rnd_pos W' = (rnd_pos world3 + 2)%nat.
Proof.
  apply (swap_rows_permutes 1%nat [] world3 [[1]; [3]]); [reflexivity | discriminate].
Defined.
